(** * srcds_proxy: the UDP front-end of package [srcds]

    A shallow embedding of [proxy/srcds/proxy.go] ([Dial], [Listen], [Serve],
    [doHandle], [setSRCSConnectionOptions]) and of the buffer pool
    ([GetBufferPool], [newBuffer], [Put], [Get]).

    Go slices are modelled with their backing arrays in an explicit heap, so
    that buffer identity (a fresh [make] against a buffer recycled by the
    pool) is visible.  The operating system, the peer sending datagrams, the
    [done] channel and the idle timer are the environment: their answers are
    inputs of the model. *)

From stdpp Require Import base numbers list strings.
From Stdlib.Init Require Import Byte.

Abbreviation byte := Byte.byte.

(** Go's [error] interface; a nil error is [None]. *)
Definition error := string.

(** ** Memory: backing arrays and slices *)

(** The heap is the sequence of backing arrays allocated so far; an array is
    named by its position. *)
Abbreviation Heap := (list (list byte)).

(** A slice header.  Every slice of this program starts at the beginning of
    its backing array, so no offset is kept. *)
Record Slice := mkSlice { s_ptr : nat; s_len : nat; s_cap : nat }.

(** [make([]byte, n)]: a fresh zero-filled array, length and capacity [n]. *)
Definition make (n : nat) (h : Heap) : Slice * Heap :=
  (mkSlice (length h) n n, h ++ [replicate n x00]).

(** [b[:n]]; Go panics ([None]) when [n] exceeds the capacity. *)
Definition slice_to (b : Slice) (n : nat) : option Slice :=
  if decide (n ≤ s_cap b) then Some (mkSlice (s_ptr b) n (s_cap b)) else None.

(** The bytes a slice shows. *)
Definition bytes_of (h : Heap) (b : Slice) : list byte :=
  take (s_len b) (default [] (h !! s_ptr b)).

(** [copy(b, data)]: overwrite the front of [b], returning the count. *)
Definition copy_into (b : Slice) (data : list byte) (h : Heap) : nat * Heap :=
  let n := length data `min` s_len b in
  (n, alter (λ arr, take n data ++ drop n arr) (s_ptr b) h).

(** ** sync.Pool *)

Module syncPool.

(** The items the pool holds.  [New] is fixed by the owner of the pool. *)
Record Pool := mk { items : list Slice }.

Definition Put (x : Slice) (p : Pool) : Pool := mk (x :: items p).

(** [Get] removes and returns an arbitrary item, or treats the pool as
    empty and calls [New]; [pick] is the runtime's choice. *)
Definition Get (New : Heap → Slice * Heap) (pick : option nat)
    (p : Pool) (h : Heap) : Slice * Pool * Heap :=
  match pick with
  | Some i =>
      match items p !! i with
      | Some x => (x, mk (delete i (items p)), h)
      | None => let '(x, h') := New h in (x, p, h')
      end
  | None => let '(x, h') := New h in (x, p, h')
  end.

(** The garbage collector may drop every pooled item. *)
Definition collect (p : Pool) : Pool := mk [].

End syncPool.

(** ** The network, as the package sees it *)

(** [net.UDPAddr]. *)
Record UDPAddr := mkUDPAddr { IP : list byte; Port : Z; Zone : string }.

Inductive SockKind :=
| Connected (raddr : UDPAddr)   (* net.DialUDP: talks to one remote peer *)
| Bound (laddr : UDPAddr).      (* net.ListenUDP: receives from any sender *)

(** An open UDP socket with the two options the package sets; [None] is the
    system's default size. *)
Record Socket := mkSocket {
  sk_kind : SockKind;
  sk_sndbuf : option nat;
  sk_rcvbuf : option nat;
}.

(** The sockets opened so far; a connection is the position of its socket. *)
Abbreviation Net := (list Socket).
Definition UDPConn := nat.

(** What a call into package [net] answers. *)
Inductive result (A : Type) :=
| Ok (a : A)
| Err (e : error).
Arguments Ok {A} a.
Arguments Err {A} e.

(** The operating system: how it resolves an address, and whether it lets a
    socket operation through ([None]) or fails it. *)
Record OS := mkOS {
  os_resolve : string → string → result UDPAddr;
  os_dial : Net → UDPAddr → option error;
  os_listen : Net → UDPAddr → option error;
  os_setwbuf : Net → UDPConn → nat → option error;
  os_setrbuf : Net → UDPConn → nat → option error;
}.

(** ** What the package declares elsewhere

    The constant, the configuration value, the types and the three helpers
    below are declared in files of the package (or of [config]) that are not
    part of this development; they are taken as given. *)
Class Package := {
  MaxDatagramSize : nat;      (* a length accepted by make *)
  HandleTimeout : Z;          (* config.HandleTimeout, a time.Duration *)
  Message : Type;
  ResponseWriter : Type;
  AddressPort : Type;
  BytesToMessage : list byte → Message;
  NewConnectionWriter : UDPConn → option UDPAddr → ResponseWriter;
  UDPAddrToAddressPort : UDPAddr → AddressPort;
}.

(** ** The buffer pool *)

Record bufferPool := mkBufferPool { pool : syncPool.Pool }.

(** Package-level state: the heap and the two globals of the pool file.  A
    [*bufferPool] is nil or points to the one object [GetBufferPool] ever
    allocates, whose state is kept in [singletonBufferPool]. *)
Record Globals := mkGlobals {
  heap : Heap;
  singletonBufferPool : option bufferPool;
  once : bool;
}.

(** A process that has not run any of the package's code yet. *)
Definition start (h : Heap) : Globals := mkGlobals h None false.

Definition set_heap (h : Heap) (g : Globals) : Globals :=
  mkGlobals h (singletonBufferPool g) (once g).

Definition set_singleton (bp : option bufferPool) (g : Globals) : Globals :=
  mkGlobals (heap g) bp (once g).

Section BufferPool.

Context `{pkg : Package}.

Definition newBuffer (h : Heap) : Slice * Heap := make MaxDatagramSize h.

(** [once.Do] runs the initialiser the first time only; the pointer
    returned is [singletonBufferPool] of the resulting state. *)
Definition GetBufferPool (g : Globals) : Globals :=
  if once g then g
  else mkGlobals (heap g) (Some (mkBufferPool (syncPool.mk []))) true.

(** Methods on the pointer; a nil receiver panics ([None]). *)
Definition Put (buffer : Slice) (g : Globals) : option Globals :=
  match singletonBufferPool g with
  | Some bp =>
      Some (set_singleton (Some (mkBufferPool (syncPool.Put buffer (pool bp)))) g)
  | None => None
  end.

Definition Get (pick : option nat) (g : Globals) : option (Slice * Globals) :=
  match singletonBufferPool g with
  | Some bp =>
      let '(x, p, h) := syncPool.Get newBuffer pick (pool bp) (heap g) in
      Some (x, mkGlobals h (Some (mkBufferPool p)) (once g))
  | None => None
  end.

(** What the users of the pool do between two of its operations. *)
Inductive PoolOp :=
| OpGet (pick : option nat)          (* GetBufferPool().Get() *)
| OpPut (buffer : Slice)             (* GetBufferPool().Put(buffer) *)
| OpWrite (b : Slice) (data : list byte) (* copy(b, data) by a borrower *)
| OpCollect.                         (* a garbage collection *)

Definition pool_step (op : PoolOp) (g : Globals) : option (list Slice * Globals) :=
  match op with
  | OpGet pick => '(x, g') ← Get pick (GetBufferPool g); Some ([x], g')
  | OpPut buffer => g' ← Put buffer (GetBufferPool g); Some ([], g')
  | OpWrite b data => Some ([], set_heap (copy_into b data (heap g)).2 g)
  | OpCollect =>
      Some ([], set_singleton
                  ((λ bp, mkBufferPool (syncPool.collect (pool bp)))
                     <$> singletonBufferPool g) g)
  end.

(** Runs the operations in order; the buffers handed out by the [Get]s
    are collected in order. *)
Fixpoint pool_run (ops : list PoolOp) (g : Globals) : option (list Slice * Globals) :=
  match ops with
  | [] => Some ([], g)
  | op :: ops' =>
      '(xs, g1) ← pool_step op g;
      '(ys, g2) ← pool_run ops' g1;
      Some (xs ++ ys, g2)
  end.

(** Every [Put] so far was given a buffer of the pool's size. *)
Definition put_sized (op : PoolOp) : Prop :=
  match op with OpPut buffer => s_cap buffer = MaxDatagramSize | _ => True end.

(** Invariant: the pool exists once [once] is set, and holds only buffers
    of capacity [MaxDatagramSize]. *)
Definition pool_inv (g : Globals) : Prop :=
  match singletonBufferPool g with
  | Some bp => Forall (λ x, s_cap x = MaxDatagramSize) (syncPool.items (pool bp))
  | None => once g = false
  end.

(** The pointer [GetBufferPool] hands out is not nil: where [once] is set
    the singleton is there. *)
Definition pool_live (g : Globals) : Prop :=
  once g = true → is_Some (singletonBufferPool g).

(** No backing array is in the pool twice, and every pooled buffer is
    allocated. *)
Definition pool_sound (g : Globals) : Prop :=
  match singletonBufferPool g with
  | Some bp =>
      NoDup (s_ptr <$> syncPool.items (pool bp)) ∧
      Forall (λ x, s_ptr x < length (heap g)) (syncPool.items (pool bp))
  | None => True
  end.

End BufferPool.

(** ** Calls into package [net] *)

Section Net.

Variable os : OS.

Definition ResolveUDPAddr (network address : string) : result UDPAddr :=
  os_resolve os network address.

Definition open_socket (k : SockKind) (net : Net) : UDPConn * Net :=
  (length net, net ++ [mkSocket k None None]).

Definition DialUDP (raddr : UDPAddr) (net : Net) : result UDPConn * Net :=
  match os_dial os net raddr with
  | Some e => (Err e, net)
  | None => let '(c, net') := open_socket (Connected raddr) net in (Ok c, net')
  end.

Definition ListenUDP (laddr : UDPAddr) (net : Net) : result UDPConn * Net :=
  match os_listen os net laddr with
  | Some e => (Err e, net)
  | None => let '(c, net') := open_socket (Bound laddr) net in (Ok c, net')
  end.

Definition SetWriteBuffer (c : UDPConn) (bytes : nat) (net : Net) : option error * Net :=
  match os_setwbuf os net c bytes with
  | Some e => (Some e, net)
  | None =>
      (None, alter (λ s, mkSocket (sk_kind s) (Some bytes) (sk_rcvbuf s)) c net)
  end.

Definition SetReadBuffer (c : UDPConn) (bytes : nat) (net : Net) : option error * Net :=
  match os_setrbuf os net c bytes with
  | Some e => (Some e, net)
  | None =>
      (None, alter (λ s, mkSocket (sk_kind s) (sk_sndbuf s) (Some bytes)) c net)
  end.

End Net.

(** ** The socket factory (proxy.go, lines 11-47 and 120-129) *)

Section Factory.

Context `{pkg : Package}.
Variable os : OS.

Definition setSRCSConnectionOptions (connection : UDPConn) (net : Net)
    : option error * Net :=
  (* Set the buffers size *)
  match SetWriteBuffer os connection MaxDatagramSize net with
  | (Some err, net) => (Some err, net)
  | (None, net) =>
      match SetReadBuffer os connection MaxDatagramSize net with
      | (Some err, net) => (Some err, net)
      | (None, net) => (None, net)
      end
  end.

(** Both constructors return Go's pair of a [*net.UDPConn] and an [error]. *)
Definition Dial (addr : string) (net : Net)
    : (option UDPConn * option error) * Net :=
  match ResolveUDPAddr os "udp" addr with
  | Err err => ((None, Some err), net)
  | Ok laddr =>
      match DialUDP os laddr net with
      | (Err err, net) => ((None, Some err), net)
      | (Ok connection, net) =>
          match setSRCSConnectionOptions connection net with
          | (Some err, net) => ((None, Some err), net)
          | (None, net) => ((Some connection, None), net)
          end
      end
  end.

Definition Listen (addr : string) (net : Net)
    : (option UDPConn * option error) * Net :=
  match ResolveUDPAddr os "udp" addr with
  | Err err => ((None, Some err), net)
  | Ok laddr =>
      match ListenUDP os laddr net with
      | (Err err, net) => ((None, Some err), net)
      | (Ok connection, net) =>
          match setSRCSConnectionOptions connection net with
          | (Some err, net) => ((None, Some err), net)
          | (None, net) => ((Some connection, None), net)
          end
      end
  end.

(** The factory's contract in the words of its description: which of the
    five ways a call can end, for an opener [open_fault] producing sockets
    of kind [kind]. *)
Inductive factory_spec (kind : UDPAddr → SockKind)
    (open_fault : Net → UDPAddr → option error) (addr : string) (net : Net)
    : (option UDPConn * option error) * Net → Prop :=
| fs_resolution e :
    os_resolve os "udp" addr = Err e →
    factory_spec kind open_fault addr net ((None, Some e), net)
| fs_socket a e :
    os_resolve os "udp" addr = Ok a →
    open_fault net a = Some e →
    factory_spec kind open_fault addr net ((None, Some e), net)
| fs_write_buffer a e net1 :
    os_resolve os "udp" addr = Ok a →
    open_fault net a = None →
    net1 = net ++ [mkSocket (kind a) None None] →
    os_setwbuf os net1 (length net) MaxDatagramSize = Some e →
    factory_spec kind open_fault addr net ((None, Some e), net1)
| fs_read_buffer a e net1 net2 :
    os_resolve os "udp" addr = Ok a →
    open_fault net a = None →
    net1 = net ++ [mkSocket (kind a) None None] →
    os_setwbuf os net1 (length net) MaxDatagramSize = None →
    net2 = net ++ [mkSocket (kind a) (Some MaxDatagramSize) None] →
    os_setrbuf os net2 (length net) MaxDatagramSize = Some e →
    factory_spec kind open_fault addr net ((None, Some e), net2)
| fs_success a net1 net2 net3 :
    os_resolve os "udp" addr = Ok a →
    open_fault net a = None →
    net1 = net ++ [mkSocket (kind a) None None] →
    os_setwbuf os net1 (length net) MaxDatagramSize = None →
    net2 = net ++ [mkSocket (kind a) (Some MaxDatagramSize) None] →
    os_setrbuf os net2 (length net) MaxDatagramSize = None →
    net3 = net ++ [mkSocket (kind a) (Some MaxDatagramSize) (Some MaxDatagramSize)] →
    factory_spec kind open_fault addr net ((Some (length net), None), net3).

End Factory.

(** ** The serve loop and the dispatch task (proxy.go, lines 49-118) *)

(** A channel is known by its name; [done] is the only one. *)
Definition Chan := nat.

(** The contexts [doHandle] builds.  [WithCancel parent c] stands for the
    context of [context.WithCancel(parent)] together with the goroutine that
    calls its cancel function once [c] is closed. *)
Inductive Context :=
| Background
| WithCancel (parent : Context) (c : Chan)
| WithTimeout (parent : Context) (d : Z).

(** The earlier of two moments, either of which may never come. *)
Definition earliest (a b : option Z) : option Z :=
  match a, b with
  | Some x, Some y => Some (x `min` y)%Z
  | Some x, None => Some x
  | None, _ => b
  end.

(** The moment a context built at time [start] is cancelled, given the
    moment each channel is closed ([None]: never).  This is the contract of
    package [context]: a context is cancelled with its parent; the
    goroutine behind [WithCancel] cancels when its channel is closed; the
    deadline of [WithTimeout] is the duration after the call. *)
Fixpoint cancelled_at (ctx : Context) (start : Z) (closed : Chan → option Z)
    : option Z :=
  match ctx with
  | Background => None
  | WithCancel parent c => earliest (cancelled_at parent start closed) (closed c)
  | WithTimeout parent d =>
      earliest (cancelled_at parent start closed) (Some (start + d)%Z)
  end.

(** What one [ReadFromUDP] meets: a datagram from some sender, or a failure
    (the socket was closed, for one). *)
Inductive ReadResult :=
| Datagram (payload : list byte) (sender : UDPAddr)
| ReadError (e : error).

(** The environment of one pass through the loop: what the read meets,
    whether [done] is closed when the [select] looks, and what
    [timer.Reset] answers ([false]: the timer had expired) should it be
    called. *)
Record Tick := mkTick { tk_read : ReadResult; tk_done : bool; tk_reset : bool }.

(** How a call ends.  [Blocked]: the environment has nothing more to offer
    and the loop sits in [ReadFromUDP]. *)
Inductive Outcome :=
| Returned (err : option error)
| Panicked
| Blocked.

(** [connection.ReadFromUDP(b)]: a datagram is copied into [b], cut to the
    length of [b]; a failure leaves [b] alone. *)
Definition ReadFromUDP (b : Slice) (r : ReadResult) (h : Heap)
  : (nat * option UDPAddr * option error) * Heap :=
  match r with
  | Datagram payload sender =>
    let '(n, h') := copy_into b payload h in ((n, Some sender, None), h')
  | ReadError e => ((0, None, Some e), h)
  end.

Section Serve.

Context `{pkg : Package}.

(** The [Handler] interface: one method, here on an explicit handler
    state.  A handler that returns is all the loop can go on with. *)
Class Handler (H : Type) :=
  Handle : H → Context → ResponseWriter → Message → AddressPort → option error * H.

Context {H : Type} `{hd : !Handler H}.

(** What the loop does that can be seen from outside, in order. *)
Inductive Event :=
| EvRead (b : Slice) (n : nat) (sourceAddr : option UDPAddr)
    (err : option error) (seen : list byte)
    (* ReadFromUDP(b) returned; [seen] is b's content afterwards *)
| EvHandle (ctx : Context) (w : ResponseWriter) (msg : Message) (a : AddressPort)
    (* handler.Handle was called with these *)
| EvCancelTimeout
    (* the deferred cancelTimeout() ran *)
| EvLog (s : string).

Record State := mkState {
  globals : Globals;
  hstate : H;
  trace : list Event;
}.

Definition emit (evs : list Event) (st : State) : State :=
  mkState (globals st) (hstate st) (trace st ++ evs).

Definition doHandle (done : Chan) (buf : Slice) (connection : UDPConn)
    (sourceAddr : option UDPAddr) (st : State) : Outcome * State :=
  if decide (s_len buf = 0) then (Returned None, st)
  else
    (* If done event is sent, cancel all requests processing. *)
    let ctx := WithCancel Background done in
    (* Handler has limited time to process the message. *)
    let ctx := WithTimeout ctx HandleTimeout in
    let msg := BytesToMessage (bytes_of (heap (globals st)) buf) in
    let responseWriter := NewConnectionWriter connection sourceAddr in
    match sourceAddr with
    | None => (Panicked, emit [EvCancelTimeout] st)
    | Some a =>
        let '(err, hs) :=
          Handle (hstate st) ctx responseWriter msg (UDPAddrToAddressPort a) in
        (Returned err,
         mkState (globals st) hs
           (trace st ++ [EvHandle ctx responseWriter msg (UDPAddrToAddressPort a);
                         EvCancelTimeout]))
    end.

(** The [for] loop of [Serve], one [Tick] per pass. *)
Fixpoint serve_loop (script : list Tick) (done : Chan) (connection : UDPConn)
    (timeout : Z) (buf : Slice) (st : State) : Outcome * State :=
  match script with
  | [] => (Blocked, st)
  | tk :: script' =>
      (* Read into buffer. *)
      let '((n, sourceAddr, err), h) :=
        ReadFromUDP buf (tk_read tk) (heap (globals st)) in
      let st :=
        mkState (set_heap h (globals st)) (hstate st)
          (trace st ++ [EvRead buf n sourceAddr err (bytes_of h buf)]) in
      (* When a done event is emitted, exit without handling the message. *)
      if tk_done tk then (Returned None, st)
      (* If the timer has expired, do not handle the message and return. *)
      else if bool_decide (0 < timeout)%Z && negb (tk_reset tk)
      then (Returned None, emit [EvLog "DEBUG: Stop Serve after timeout."] st)
      else
        (* Check for Read error. *)
        match err with
        | Some e => (Returned (Some e), st)
        | None =>
            match slice_to buf n with
            | None => (Panicked, st)
            | Some b =>
                match doHandle done b connection sourceAddr st with
                | (Returned None, st) =>
                    serve_loop script' done connection timeout buf st
                | (Returned (Some e), st) => (Returned (Some e), st)
                | (o, st) => (o, st)
                end
            end
        end
  end.

(** Line 55: the buffer [Serve] reads into. *)
Definition Serve_buffer (g : Globals) : Slice * Globals :=
  let '(buf, h) := make MaxDatagramSize (heap g) in (buf, set_heap h g).

(** The same step in the words of the system overview: a buffer drawn
    from the Buffer Pool. *)
Definition pool_drawn_buffer (pick : option nat) (g : Globals)
    : option (Slice * Globals) :=
  Get pick (GetBufferPool g).

(** The buffer of [Serve] is one the pool hands out: for some choice of
    the runtime, drawing from the pool gives the slice and leaves the
    package state that line 55 gives. *)
Definition buffer_drawn_from_pool (g : Globals) : Prop :=
  ∃ pick, pool_drawn_buffer pick g = Some (Serve_buffer g).

(** [Serve].  With [timeout > 0] a timer is started and a goroutine closes
    the connection when it fires; both live in the environment, which
    answers through [tk_read] and [tk_reset]. *)
Definition Serve (script : list Tick) (done : Chan) (connection : UDPConn)
    (timeout : Z) (st : State) : Outcome * State :=
  let '(buf, g) := Serve_buffer (globals st) in
  serve_loop script done connection timeout buf
    (mkState g (hstate st) (trace st)).

(** *** Reading a trace *)

Definition Call : Type := Context * ResponseWriter * Message * AddressPort.

(** The handler invocations, in order. *)
Definition calls (tr : list Event) : list Call :=
  omap (λ ev, match ev with
              | EvHandle ctx w msg a => Some (ctx, w, msg, a)
              | _ => None
              end) tr.

(** The datagrams read (reads without error): bytes-read count, sender
    and buffer content. *)
Definition datagrams (tr : list Event) : list (nat * UDPAddr * list byte) :=
  omap (λ ev, match ev with
              | EvRead _ n (Some a) None seen => Some (n, a, seen)
              | _ => None
              end) tr.

(** Every read, failed or not. *)
Definition reads (tr : list Event) : nat :=
  length (omap (λ ev, match ev with EvRead _ _ _ _ _ => Some () | _ => None end) tr).

(** The invocation owed to a datagram: the first [n] bytes of the buffer
    as the message, a writer bound to connection and sender. *)
Definition call_for (done : Chan) (connection : UDPConn)
    (d : nat * UDPAddr * list byte) : Call :=
  let '(n, a, seen) := d in
  (WithTimeout (WithCancel Background done) HandleTimeout,
   NewConnectionWriter connection (Some a),
   BytesToMessage (take n seen),
   UDPAddrToAddressPort a).

(** One invocation per datagram, in order. *)
Definition once_per_datagram (done : Chan) (connection : UDPConn)
    (tr : list Event) : Prop :=
  calls tr = call_for done connection <$> datagrams tr.

(** One invocation per datagram that is not empty, in order. *)
Definition once_per_nonempty_datagram (done : Chan) (connection : UDPConn)
    (tr : list Event) : Prop :=
  calls tr =
  call_for done connection <$> filter (λ d, d.1.1 ≠ 0) (datagrams tr).

(** The buffer is allocated and has the package's size. *)
Definition buf_ok (h : Heap) (buf : Slice) : Prop :=
  s_len buf = MaxDatagramSize ∧ s_cap buf = MaxDatagramSize ∧
  ∃ arr, h !! s_ptr buf = Some arr ∧ length arr = MaxDatagramSize.

(** The buffers the reads of a trace went to. *)
Definition read_buffers (tr : list Event) : list Slice :=
  omap (λ ev, match ev with EvRead b _ _ _ _ => Some b | _ => None end) tr.

(** A pass during which [done] is open and the timer, if any, has not
    expired. *)
Definition undisturbed (timeout : Z) (tk : Tick) : Prop :=
  tk_done tk = false ∧ ((timeout ≤ 0)%Z ∨ tk_reset tk = true).

(** An undisturbed pass whose read brings a datagram. *)
Definition clean (timeout : Z) (tk : Tick) : Prop :=
  undisturbed timeout tk ∧ ∃ payload sender, tk_read tk = Datagram payload sender.

(** A datagram of the script against its entry in the trace. *)
Definition read_matches (tk : Tick) (d : nat * UDPAddr * list byte) : Prop :=
  let '(n, a, seen) := d in
  ∃ payload,
    tk_read tk = Datagram payload a ∧
    n = length payload `min` MaxDatagramSize ∧
    length seen = MaxDatagramSize ∧
    take n seen = take MaxDatagramSize payload.

(** The shape of what a run adds to the trace: passes, each a read,
    followed by the handler invocation owed to it and the deferred cancel
    when it is dispatched; the log line of the idle timer ends the trace. *)
Inductive shaped (done : Chan) (connection : UDPConn) : list Event → Prop :=
| shaped_nil :
    shaped done connection []
| shaped_read b n sourceAddr err seen tr :
    shaped done connection tr →
    shaped done connection (EvRead b n sourceAddr err seen :: tr)
| shaped_dispatch b n a seen ctx w msg ap tr :
    n ≠ 0 →
    (ctx, w, msg, ap) = call_for done connection (n, a, seen) →
    shaped done connection tr →
    shaped done connection
      (EvRead b n (Some a) None seen :: EvHandle ctx w msg ap :: EvCancelTimeout :: tr)
| shaped_timeout b n sourceAddr err seen s :
    shaped done connection [EvRead b n sourceAddr err seen; EvLog s].

(** Every invocation of the trace was given a context that is cancelled at
    the earlier of the closing of [done] and [HandleTimeout] after the start
    of the dispatch, and is followed at once by the release of the timeout
    context (the deferred [cancelTimeout]), which occurs nowhere else. *)
Fixpoint dispatches_bounded (done : Chan) (tr : list Event) : Prop :=
  match tr with
  | [] => True
  | EvHandle ctx _ _ _ :: rest =>
      (∀ start closed,
         cancelled_at ctx start closed
         = earliest (closed done) (Some (start + HandleTimeout)%Z)) ∧
      match rest with
      | EvCancelTimeout :: rest' => dispatches_bounded done rest'
      | _ => False
      end
  | EvCancelTimeout :: _ => False
  | _ :: rest => dispatches_bounded done rest
  end.

(** Why a pass made [Serve] return [err]: nil is returned when [done] had
    fired or the timer had expired; an error is the error of the read of
    the pass or the one the handler returned on the datagram of the pass,
    invoked on handler state [hs] and leaving it [hs']. *)
Definition stop_cause (done : Chan) (connection : UDPConn) (timeout : Z)
    (tk : Tick) (hs hs' : H) (err : option error) : Prop :=
  match err with
  | None =>
      tk_done tk = true ∨
      ((0 < timeout)%Z ∧ tk_done tk = false ∧ tk_reset tk = false)
  | Some e =>
      undisturbed timeout tk ∧
      ((tk_read tk = ReadError e ∧ hs' = hs) ∨
       ∃ payload a,
         tk_read tk = Datagram payload a ∧
         length payload `min` MaxDatagramSize ≠ 0 ∧
         Handle hs (WithTimeout (WithCancel Background done) HandleTimeout)
           (NewConnectionWriter connection (Some a))
           (BytesToMessage (take MaxDatagramSize payload))
           (UDPAddrToAddressPort a)
         = (Some e, hs'))
  end.

(** Replaying invocations on the handler, from state [hs]: each one sees
    the state the one before left, all return nil but possibly the last,
    whose error is then the outcome [o]; [hs'] is the state at the end. *)
Fixpoint handled (hs : H) (cs : list Call) (o : Outcome) (hs' : H) : Prop :=
  match cs with
  | [] => hs' = hs
  | (ctx, w, msg, a) :: cs' =>
      match Handle hs ctx w msg a with
      | (None, hs1) => handled hs1 cs' o hs'
      | (Some e, hs1) => cs' = [] ∧ o = Returned (Some e) ∧ hs' = hs1
      end
  end.

(** Two scripts that differ at most in what [timer.Reset] would answer. *)
Definition same_but_timer (tk tk' : Tick) : Prop :=
  tk_read tk = tk_read tk' ∧ tk_done tk = tk_done tk'.

End Serve.

(** ** A concrete package, handler and system

    Small instances on which the definitions above can be run. *)

Definition demo_pkg : Package := {|
  MaxDatagramSize := 4;
  HandleTimeout := 1000000000;
  Message := list byte;
  ResponseWriter := UDPConn * option UDPAddr;
  AddressPort := list byte * Z;
  BytesToMessage := λ b, b;
  NewConnectionWriter := pair;
  UDPAddrToAddressPort := λ a, (IP a, Port a);
|}.

(** Counts its invocations; rejects a message that starts with [0xff]. *)
Definition demo_handler : Handler (pkg := demo_pkg) nat :=
  λ count _ _ msg _,
    (match msg with
     | xff :: _ => Some "bad request"%string
     | _ => None
     end, S count).

(** Counts its invocations and accepts every message. *)
Definition demo_counter : Handler (pkg := demo_pkg) nat :=
  λ count _ _ _ _, (None, S count).

Definition demo_peer : UDPAddr := mkUDPAddr [x0a; x00; x00; x02] 27005 EmptyString.

Definition demo_state : State (pkg := demo_pkg) (H := nat) :=
  mkState (start []) 0 [].

Definition demo_Serve (script : list Tick) (timeout : Z) :=
  Serve (pkg := demo_pkg) (hd := demo_handler) script 0 0 timeout demo_state.

(** A pass that brings [payload] while nothing else happens. *)
Definition quiet (payload : list byte) : Tick :=
  mkTick (Datagram payload demo_peer) false true.

(** A system that resolves one address and lets everything through. *)
Definition demo_os : OS := {|
  os_resolve := λ _ address,
    if decide (address = "127.0.0.1:0"%string)
    then Ok (mkUDPAddr [x7f; x00; x00; x01] 0 EmptyString)
    else Err "missing port in address"%string;
  os_dial := λ _ _, None;
  os_listen := λ _ _, None;
  os_setwbuf := λ _ _ _, None;
  os_setrbuf := λ _ _ _, None;
|}.

(** The same system, refusing to size the receive buffer. *)
Definition stingy_os : OS := {|
  os_resolve := os_resolve demo_os;
  os_dial := λ _ _, None;
  os_listen := λ _ _, None;
  os_setwbuf := λ _ _ _, None;
  os_setrbuf := λ _ _ _, Some "operation not permitted"%string;
|}.

(** * Properties *)

(** ** The buffer pool *)

Section BufferPoolFacts.

Context `{pkg : Package}.

Local Abbreviation sized := (λ x : Slice, s_cap x = MaxDatagramSize).

Lemma start_inv h : pool_inv (start h).
Proof. reflexivity. Qed.

Lemma GetBufferPool_inv g :
  pool_inv g →
  pool_inv (GetBufferPool g) ∧ is_Some (singletonBufferPool (GetBufferPool g)).
Proof.
  unfold pool_inv, GetBufferPool. intros Hg.
  destruct (once g) eqn:Ho; simpl.
  - destruct (singletonBufferPool g); [eauto | congruence].
  - split; [constructor | eauto].
Qed.

Lemma syncPool_Get_sized pick p h x p' h' :
  Forall sized (syncPool.items p) →
  syncPool.Get newBuffer pick p h = (x, p', h') →
  s_cap x = MaxDatagramSize ∧ Forall sized (syncPool.items p').
Proof.
  intros Hp. unfold syncPool.Get, newBuffer, make.
  destruct pick as [i|]; [destruct (syncPool.items p !! i) as [y|] eqn:Hi |];
    intros [= <- <- <-]; simpl; auto.
  split.
  - exact (Forall_lookup_1 _ _ _ _ Hp Hi).
  - by apply Forall_delete.
Qed.

Lemma Get_inv pick g :
  pool_inv g → is_Some (singletonBufferPool g) →
  ∃ x g', Get pick g = Some (x, g') ∧
          s_cap x = MaxDatagramSize ∧ pool_inv g'.
Proof.
  unfold pool_inv, Get. intros Hg [bp Hbp]. rewrite Hbp in *.
  destruct (syncPool.Get newBuffer pick (pool bp) (heap g)) as [[x p] h] eqn:E.
  destruct (syncPool_Get_sized _ _ _ _ _ _ Hg E) as [Hx Hp].
  eexists _, _. split; [reflexivity |]. simpl. auto.
Qed.

Lemma Put_inv buffer g :
  s_cap buffer = MaxDatagramSize →
  pool_inv g → is_Some (singletonBufferPool g) →
  ∃ g', Put buffer g = Some g' ∧ pool_inv g'.
Proof.
  unfold pool_inv, Put. intros Hb Hg [bp Hbp]. rewrite Hbp in *.
  eexists. split; [reflexivity |]. simpl. by constructor.
Qed.

Lemma pool_step_inv op g :
  put_sized op → pool_inv g →
  ∃ xs g', pool_step op g = Some (xs, g') ∧
           Forall sized xs ∧ pool_inv g'.
Proof.
  intros Hop Hg. destruct op as [pick|buffer|b data|]; simpl in *.
  - destruct (GetBufferPool_inv g Hg) as [Hi Hs].
    destruct (Get_inv pick _ Hi Hs) as (x & g' & -> & Hx & Hg').
    simpl. eexists _, _. split; [reflexivity |]. auto.
  - destruct (GetBufferPool_inv g Hg) as [Hi Hs].
    destruct (Put_inv buffer _ Hop Hi Hs) as (g' & -> & Hg').
    simpl. eexists _, _. split; [reflexivity |]. auto.
  - eexists _, _. split; [reflexivity |]. split; [constructor |].
    unfold pool_inv in *. simpl. exact Hg.
  - eexists _, _. split; [reflexivity |]. split; [constructor |].
    unfold pool_inv in *. simpl.
    destruct (singletonBufferPool g); simpl; [constructor | exact Hg].
Qed.

Lemma pool_run_inv ops : ∀ g,
  Forall put_sized ops → pool_inv g →
  ∃ xs g', pool_run ops g = Some (xs, g') ∧
           Forall sized xs ∧ pool_inv g'.
Proof.
  induction ops as [|op ops IH]; intros g Hops Hg.
  - eexists _, _. split; [reflexivity |]. auto.
  - apply Forall_cons in Hops as [Hop Hops].
    destruct (pool_step_inv op g Hop Hg) as (xs & g1 & Hstep & Hxs & Hg1).
    destruct (IH g1 Hops Hg1) as (ys & g2 & Hrun & Hys & Hg2).
    exists (xs ++ ys), g2. split; [| split; [by apply Forall_app | done]].
    cbn [pool_run]. rewrite Hstep. cbn. rewrite Hrun. reflexivity.
Qed.

(** A buffer that went through a borrower comes back holding what the
    borrower wrote. *)
Lemma Get_after_Put_is_stale h0 data :
  length data = MaxDatagramSize →
  let b := mkSlice (length h0) MaxDatagramSize MaxDatagramSize in
  ∃ g', pool_run
          [OpGet None; OpWrite b data; OpPut b; OpGet (Some 0)] (start h0)
        = Some ([b; b], g') ∧
        bytes_of (heap g') b = data.
Proof.
  intros Hlen b. eexists. split; [reflexivity |].
  simpl. unfold bytes_of, copy_into. simpl.
  rewrite Hlen, Nat.min_id.
  replace (length h0) with (length h0 + 0) at 1 2 by lia.
  rewrite (alter_app_r _ h0 [replicate MaxDatagramSize x00] 0).
  rewrite lookup_app_r by lia.
  replace (length h0 + 0 - length h0) with 0 by lia. simpl.
  rewrite <- Hlen at 1 2. rewrite firstn_all, drop_replicate.
  rewrite Hlen, Nat.sub_diag. simpl. rewrite app_nil_r.
  rewrite <- Hlen. apply firstn_all.
Qed.

(** C9. After any history of pool operations in which every [Put] was
    given a buffer of capacity [MaxDatagramSize], the next [Get] returns
    (it does not panic) a buffer of capacity [MaxDatagramSize]; what the
    buffer holds is not fixed: any [MaxDatagramSize] bytes a previous
    borrower wrote before returning the buffer are still in it. *)
Theorem Get_capacity (h0 : Heap) (ops : list PoolOp) (pick : option nat) :
  Forall put_sized ops →
  (∃ xs g1 x g2,
      pool_run ops (start h0) = Some (xs, g1) ∧
      Get pick (GetBufferPool g1) = Some (x, g2) ∧
      s_cap x = MaxDatagramSize) ∧
  (∀ data, length data = MaxDatagramSize →
      let b := mkSlice (length h0) MaxDatagramSize MaxDatagramSize in
      ∃ g', pool_run
              [OpGet None; OpWrite b data; OpPut b; OpGet (Some 0)] (start h0)
            = Some ([b; b], g') ∧
            bytes_of (heap g') b = data).
Proof.
  intros Hops. split.
  - destruct (pool_run_inv ops (start h0) Hops (start_inv h0))
      as (xs & g1 & Hrun & _ & Hg1).
    destruct (GetBufferPool_inv g1 Hg1) as [Hi Hs].
    destruct (Get_inv pick _ Hi Hs) as (x & g2 & HGet & Hx & _).
    by exists xs, g1, x, g2.
  - intros data Hdata. by apply Get_after_Put_is_stale.
Qed.

End BufferPoolFacts.

(** ** The socket factory *)

Lemma alter_last {A} (f : A → A) (l : list A) (x : A) :
  alter f (length l) (l ++ [x]) = l ++ [f x].
Proof.
  replace (length l) with (length l + 0) by lia.
  by rewrite (alter_app_r f l [x] 0).
Qed.

Section FactoryFacts.

Context `{pkg : Package}.
Variable os : OS.

(** What [setSRCSConnectionOptions] does to a socket that was just
    opened, by the answers of the system. *)
Lemma setSRCSConnectionOptions_fresh (k : SockKind) (net : Net) :
  let net1 := net ++ [mkSocket k None None] in
  let net2 := net ++ [mkSocket k (Some MaxDatagramSize) None] in
  let net3 := net ++ [mkSocket k (Some MaxDatagramSize) (Some MaxDatagramSize)] in
  setSRCSConnectionOptions os (length net) net1 =
  match os_setwbuf os net1 (length net) MaxDatagramSize with
  | Some e => (Some e, net1)
  | None =>
      match os_setrbuf os net2 (length net) MaxDatagramSize with
      | Some e => (Some e, net2)
      | None => (None, net3)
      end
  end.
Proof.
  intros net1 net2 net3.
  unfold setSRCSConnectionOptions, SetWriteBuffer, SetReadBuffer.
  fold net1. destruct (os_setwbuf os net1 _ _); [reflexivity |].
  unfold net1. rewrite alter_last. simpl. fold net2.
  destruct (os_setrbuf os net2 _ _); [reflexivity |].
  unfold net2. by rewrite alter_last.
Qed.

Lemma Dial_spec addr net :
  factory_spec os Connected (os_dial os) addr net
    (Dial os addr net).
Proof.
  unfold Dial, ResolveUDPAddr, DialUDP, open_socket.
  destruct (os_resolve os "udp" addr) as [a|e] eqn:Hr; [| by eapply fs_resolution].
  destruct (os_dial os net a) as [e|] eqn:Ho; [by eapply fs_socket |].
  rewrite setSRCSConnectionOptions_fresh.
  destruct (os_setwbuf os _ _ _) as [e|] eqn:Hw; [by eapply fs_write_buffer |].
  destruct (os_setrbuf os _ _ _) as [e|] eqn:Hb; [by eapply fs_read_buffer |].
  by eapply fs_success.
Qed.

Lemma Listen_spec addr net :
  factory_spec os Bound (os_listen os) addr net
    (Listen os addr net).
Proof.
  unfold Listen, ResolveUDPAddr, ListenUDP, open_socket.
  destruct (os_resolve os "udp" addr) as [a|e] eqn:Hr; [| by eapply fs_resolution].
  destruct (os_listen os net a) as [e|] eqn:Ho; [by eapply fs_socket |].
  rewrite setSRCSConnectionOptions_fresh.
  destruct (os_setwbuf os _ _ _) as [e|] eqn:Hw; [by eapply fs_write_buffer |].
  destruct (os_setrbuf os _ _ _) as [e|] eqn:Hb; [by eapply fs_read_buffer |].
  by eapply fs_success.
Qed.

(** C8. [Dial] and [Listen] resolve the address first and fail with the
    resolution error; otherwise they open the socket (connected for
    [Dial], bound for [Listen]), set the write buffer and then the read
    buffer to [MaxDatagramSize], failing with the error of the first of
    these operations that fails; when all succeed they return the
    connection, whose socket has both sizes set, and a nil error. *)
Theorem Dial_Listen_spec (addr : string) (net : Net) :
  factory_spec os Connected (os_dial os) addr net
    (Dial os addr net) ∧
  factory_spec os Bound (os_listen os) addr net
    (Listen os addr net).
Proof. split; [apply Dial_spec | apply Listen_spec]. Qed.

Lemma factory_spec_error kind open_fault addr net c e net' :
  factory_spec os kind open_fault addr net ((c, Some e), net') →
  c = None.
Proof. by inversion 1. Qed.

(** C10. Whenever [Dial] or [Listen] returns a non-nil error the
    connection returned with it is nil; so it is when setting the options
    fails on a socket that is already open, which stays open in the
    system and is not handed to the caller. *)
Theorem error_means_no_connection (addr : string) (net : Net) :
  (∀ c e net', Dial os addr net = ((c, Some e), net') → c = None) ∧
  (∀ c e net', Listen os addr net = ((c, Some e), net') → c = None) ∧
  (∀ a conn net1 e net',
      ResolveUDPAddr os "udp" addr = Ok a →
      DialUDP os a net = (Ok conn, net1) →
      setSRCSConnectionOptions os conn net1 = (Some e, net') →
      Dial os addr net = ((None, Some e), net') ∧
      is_Some (net' !! conn)) ∧
  (∀ a conn net1 e net',
      ResolveUDPAddr os "udp" addr = Ok a →
      ListenUDP os a net = (Ok conn, net1) →
      setSRCSConnectionOptions os conn net1 = (Some e, net') →
      Listen os addr net = ((None, Some e), net') ∧
      is_Some (net' !! conn)).
Proof.
  split; [| split; [| split]].
  - intros c e net' E. eapply factory_spec_error. rewrite <- E. apply Dial_spec.
  - intros c e net' E. eapply factory_spec_error. rewrite <- E. apply Listen_spec.
  - intros a conn net1 e net' Hr Hd Hs. unfold Dial. rewrite Hr, Hd, Hs.
    split; [reflexivity |].
    revert Hd Hs. unfold DialUDP, open_socket.
    destruct (os_dial os net a); [discriminate |]. intros [= <- <-].
    rewrite setSRCSConnectionOptions_fresh.
    repeat case_match; intros [= <- <-]; rewrite lookup_app_r by lia;
      rewrite Nat.sub_diag; eauto.
  - intros a conn net1 e net' Hr Hd Hs. unfold Listen. rewrite Hr, Hd, Hs.
    split; [reflexivity |].
    revert Hd Hs. unfold ListenUDP, open_socket.
    destruct (os_listen os net a); [discriminate |]. intros [= <- <-].
    rewrite setSRCSConnectionOptions_fresh.
    repeat case_match; intros [= <- <-]; rewrite lookup_app_r by lia;
      rewrite Nat.sub_diag; eauto.
Qed.

End FactoryFacts.

(** ** The serve loop *)

Section ServeFacts.

Context `{pkg : Package} {H : Type} `{hd : !Handler H}.

Implicit Types (st : State (H:=H)) (tr : list Event) (tk : Tick).

Lemma calls_app tr1 tr2 : calls (tr1 ++ tr2) = calls tr1 ++ calls tr2.
Proof. apply omap_app. Qed.

Lemma datagrams_app tr1 tr2 : datagrams (tr1 ++ tr2) = datagrams tr1 ++ datagrams tr2.
Proof. apply omap_app. Qed.

Lemma reads_app tr1 tr2 : reads (tr1 ++ tr2) = reads tr1 + reads tr2.
Proof. unfold reads. by rewrite omap_app, length_app. Qed.

Lemma read_buffers_app tr1 tr2 :
  read_buffers (tr1 ++ tr2) = read_buffers tr1 ++ read_buffers tr2.
Proof. apply omap_app. Qed.

Lemma Serve_unfold script done conn timeout st :
  Serve script done conn timeout st =
  serve_loop script done conn timeout
    (mkSlice (length (heap (globals st))) MaxDatagramSize MaxDatagramSize)
    (mkState
       (set_heap (heap (globals st) ++ [replicate MaxDatagramSize x00]) (globals st))
       (hstate st) (trace st)).
Proof. reflexivity. Qed.

Lemma Serve_entry_ok st :
  buf_ok
    (heap (globals
       (mkState
          (set_heap (heap (globals st) ++ [replicate MaxDatagramSize x00]) (globals st))
          (hstate st) (trace st))))
    (mkSlice (length (heap (globals st))) MaxDatagramSize MaxDatagramSize).
Proof.
  unfold buf_ok. simpl. split; [done | split; [done |]].
  exists (replicate MaxDatagramSize x00).
  rewrite lookup_app_r, Nat.sub_diag by lia. by rewrite length_replicate.
Qed.

(** *** One read *)

Lemma ReadFromUDP_datagram buf payload a h :
  buf_ok h buf →
  ∃ h', ReadFromUDP buf (Datagram payload a) h
        = ((length payload `min` MaxDatagramSize, Some a, None), h') ∧
        buf_ok h' buf ∧ length h' = length h ∧
        length (bytes_of h' buf) = MaxDatagramSize ∧
        ∀ n, n = length payload `min` MaxDatagramSize →
             take n (bytes_of h' buf) = take MaxDatagramSize payload ∧
             bytes_of h' (mkSlice (s_ptr buf) n (s_cap buf))
             = take MaxDatagramSize payload.
Proof.
  intros (Hlen & Hcap & arr & Harr & Harrlen).
  unfold ReadFromUDP, copy_into. rewrite Hlen.
  set (n := length payload `min` MaxDatagramSize).
  eexists. split; [reflexivity |].
  assert (Hnew : alter (λ arr0, take n payload ++ drop n arr0) (s_ptr buf) h
                 !! s_ptr buf = Some (take n payload ++ drop n arr)).
  { by rewrite list_lookup_alter_eq, Harr. }
  assert (Hnewlen : length (take n payload ++ drop n arr) = MaxDatagramSize).
  { rewrite length_app, length_take, length_drop. lia. }
  assert (Htake : take n (take n payload ++ drop n arr) = take MaxDatagramSize payload).
  { rewrite take_app_le by (rewrite length_take; lia).
    rewrite take_take, Nat.min_id. unfold n.
    destruct (decide (length payload ≤ MaxDatagramSize)).
    - rewrite Nat.min_l by done. by rewrite !take_ge by lia.
    - by rewrite Nat.min_r by lia. }
  split; [| split; [| split]].
  - split; [done | split; [done |]]. eauto.
  - apply length_alter.
  - unfold bytes_of. rewrite Hnew, Hlen. simpl.
    rewrite length_take. lia.
  - intros ? ->. fold n. unfold bytes_of. simpl. rewrite Hnew, Hlen. simpl.
    rewrite take_take. replace (n `min` MaxDatagramSize) with n by lia. done.
Qed.

Lemma ReadFromUDP_frame buf r h :
  buf_ok h buf →
  let res := ReadFromUDP buf r h in
  buf_ok res.2 buf ∧ length res.2 = length h ∧
  res.1.1.1 ≤ MaxDatagramSize ∧
  (res.1.2 = None → is_Some res.1.1.2).
Proof.
  intros Hok. destruct r as [payload a | e].
  - destruct (ReadFromUDP_datagram buf payload a h Hok) as (h' & -> & ? & ? & _).
    simpl. split; [done | split; [done | split; [lia | eauto]]].
  - simpl. split; [done | split; [done | split; [lia | done]]].
Qed.

Lemma timer_quiet timeout tk :
  (timeout ≤ 0)%Z ∨ tk_reset tk = true →
  bool_decide (0 < timeout)%Z && negb (tk_reset tk) = false.
Proof.
  intros [Ht | ->].
  - by rewrite bool_decide_eq_false_2 by lia.
  - apply andb_false_r.
Qed.

Lemma timer_expired timeout tk :
  (0 < timeout)%Z → tk_reset tk = false →
  bool_decide (0 < timeout)%Z && negb (tk_reset tk) = true.
Proof. intros Ht ->. by rewrite bool_decide_eq_true_2. Qed.

(** *** The dispatch task *)

Lemma doHandle_empty done buf conn sourceAddr st :
  s_len buf = 0 → doHandle done buf conn sourceAddr st = (Returned None, st).
Proof. intros Hn. unfold doHandle. by rewrite decide_True. Qed.

Lemma doHandle_call done buf conn a st :
  s_len buf ≠ 0 →
  let ctx := WithTimeout (WithCancel Background done) HandleTimeout in
  let w := NewConnectionWriter conn (Some a) in
  let msg := BytesToMessage (bytes_of (heap (globals st)) buf) in
  let res := Handle (hstate st) ctx w msg (UDPAddrToAddressPort a) in
  doHandle done buf conn (Some a) st =
  (Returned res.1,
   mkState (globals st) res.2
     (trace st ++ [EvHandle ctx w msg (UDPAddrToAddressPort a); EvCancelTimeout])).
Proof.
  intros Hn ctx w msg res. unfold doHandle. rewrite decide_False by done.
  fold ctx w msg. fold res. by destruct res.
Qed.

Lemma doHandle_frame done buf conn sourceAddr st :
  let res := doHandle done buf conn sourceAddr st in
  res.1 ≠ Blocked ∧ globals res.2 = globals st ∧
  (is_Some sourceAddr → res.1 ≠ Panicked) ∧
  ∃ tr', trace res.2 = trace st ++ tr' ∧ read_buffers tr' = [].
Proof.
  unfold doHandle. destruct (decide (s_len buf = 0)).
  - simpl. split; [done | split; [done | split; [done |]]].
    exists []. by rewrite app_nil_r.
  - destruct sourceAddr as [a|].
    + destruct (Handle _ _ _ _ _) as [err hs]. simpl.
      split; [done | split; [done | split; [done | eauto]]].
    + simpl. split; [done | split; [done | split; [| eauto]]].
      by intros [? ?].
Qed.

(** *** The loop *)

(** Whatever the environment does, the loop keeps its buffer allocated,
    allocates nothing, leaves the pool's globals alone, reads into [buf]
    only, and does not panic. *)
Lemma serve_loop_frame script done conn timeout buf : ∀ st,
  buf_ok (heap (globals st)) buf →
  let res := serve_loop script done conn timeout buf st in
  buf_ok (heap (globals res.2)) buf ∧
  length (heap (globals res.2)) = length (heap (globals st)) ∧
  singletonBufferPool (globals res.2) = singletonBufferPool (globals st) ∧
  once (globals res.2) = once (globals st) ∧
  res.1 ≠ Panicked ∧
  ∃ tr', trace res.2 = trace st ++ tr' ∧ Forall (λ b, b = buf) (read_buffers tr').
Proof.
  induction script as [|tk script IH]; intros st Hok.
  - simpl. repeat (split; [done |]). exists []. by rewrite app_nil_r.
  - cbn [serve_loop].
    pose proof (ReadFromUDP_frame buf (tk_read tk) _ Hok) as Hread.
    destruct (ReadFromUDP buf (tk_read tk) (heap (globals st)))
      as [[[n sourceAddr] err] h]. simpl in Hread.
    destruct Hread as (Hok' & Hlen & Hn & Haddr).
    assert (Hone : ∀ evs, Forall (λ b, b = buf)
              (read_buffers (EvRead buf n sourceAddr err (bytes_of h buf) :: evs))
              ↔ Forall (λ b, b = buf) (read_buffers evs)).
    { intros evs. simpl. rewrite Forall_cons. tauto. }
    destruct (tk_done tk).
    { simpl. repeat (split; [done |]). eexists. split; [done |]. by apply Hone. }
    destruct (bool_decide (0 < timeout)%Z && negb (tk_reset tk)).
    { simpl. repeat (split; [done |]). eexists.
      split; [by rewrite <- app_assoc |]. by apply Hone. }
    destruct err as [e|].
    { simpl. repeat (split; [done |]). eexists. split; [done |]. by apply Hone. }
    destruct Hok as (Hl & Hc & _).
    unfold slice_to. rewrite decide_True by lia.
    match goal with |- context [doHandle done ?b conn sourceAddr ?s] =>
      pose proof (doHandle_frame done b conn sourceAddr s) as Hd;
      destruct (doHandle done b conn sourceAddr s) as [o st2]
    end.
    simpl in Hd. destruct Hd as (Hnb & Hg & Hnp & tr2 & Htr2 & Hrb2).
    specialize (Hnp (Haddr eq_refl)).
    assert (Hstop : buf_ok (heap (globals st2)) buf ∧
              length (heap (globals st2)) = length (heap (globals st)) ∧
              singletonBufferPool (globals st2) = singletonBufferPool (globals st) ∧
              once (globals st2) = once (globals st) ∧
              ∃ tr', trace st2 = trace st ++ tr' ∧
                     Forall (λ b, b = buf) (read_buffers tr')).
    { rewrite Hg. simpl. repeat (split; [done |]). eexists.
      split; [by rewrite Htr2, <- app_assoc |].
      rewrite read_buffers_app, Hrb2, app_nil_r. by repeat constructor. }
    destruct o as [[e|]| |]; [| | done | done].
    + simpl. destruct Hstop as (? & ? & ? & ? & ?). done.
    + destruct Hstop as (Hok2 & Hlen2 & Hs2 & Ho2 & tr' & Htr' & Hrb').
      specialize (IH st2 Hok2). simpl in IH.
      destruct IH as (? & ? & ? & ? & ? & tr3 & Htr3 & Hrb3).
      repeat (split; [congruence |]).
      exists (tr' ++ tr3). split; [by rewrite Htr3, Htr', <- app_assoc |].
      rewrite read_buffers_app. by apply Forall_app.
Qed.

(** Running a script in two pieces: the second piece is reached exactly
    when the loop is back in its read at the end of the first. *)
Lemma serve_loop_app pre rest done conn timeout buf : ∀ st,
  serve_loop (pre ++ rest) done conn timeout buf st =
  match serve_loop pre done conn timeout buf st with
  | (Blocked, st1) => serve_loop rest done conn timeout buf st1
  | res => res
  end.
Proof.
  induction pre as [|tk pre IH]; intros st; [done |].
  cbn [serve_loop app].
  destruct (ReadFromUDP buf (tk_read tk) (heap (globals st)))
    as [[[n sourceAddr] err] h].
  destruct (tk_done tk); [done |].
  destruct (bool_decide (0 < timeout)%Z && negb (tk_reset tk)); [done |].
  destruct err as [e|]; [done |].
  destruct (slice_to buf n) as [b|]; [| done].
  match goal with |- context [doHandle done b conn sourceAddr ?s] =>
    pose proof (doHandle_frame done b conn sourceAddr s) as Hd;
    destruct (doHandle done b conn sourceAddr s) as [o st2]
  end.
  destruct o as [[e|]| |]; [done | apply IH | done |].
  simpl in Hd. by destruct Hd as [? _].
Qed.

(** The state in which [Serve] enters its loop. *)
Lemma Serve_app pre rest done conn timeout st st1 :
  Serve pre done conn timeout st = (Blocked, st1) →
  let buf := mkSlice (length (heap (globals st))) MaxDatagramSize MaxDatagramSize in
  Serve (pre ++ rest) done conn timeout st = serve_loop rest done conn timeout buf st1 ∧
  buf_ok (heap (globals st1)) buf.
Proof.
  rewrite !Serve_unfold. intros Hpre buf. fold buf in Hpre |- *.
  rewrite serve_loop_app, Hpre. split; [done |].
  pose proof (serve_loop_frame pre done conn timeout buf _ (Serve_entry_ok st)) as Hf.
  cbv zeta in Hf. rewrite Hpre in Hf. by destruct Hf as [? _].
Qed.

(** On clean passes every datagram read is found in the trace as it came,
    and every one that is not empty was handed to the handler once. *)
Lemma serve_loop_dispatch script done conn timeout buf : ∀ st,
  Forall (clean timeout) script →
  buf_ok (heap (globals st)) buf →
  let res := serve_loop script done conn timeout buf st in
  ∃ tr, trace res.2 = trace st ++ tr ∧
        once_per_nonempty_datagram done conn tr ∧
        Forall2 read_matches (take (length (datagrams tr)) script) (datagrams tr) ∧
        reads tr = length (datagrams tr) ∧
        (res.1 = Blocked → length (datagrams tr) = length script).
Proof.
  unfold once_per_nonempty_datagram.
  induction script as [|tk script IH]; intros st Hclean Hok.
  - simpl. exists []. rewrite app_nil_r. repeat split; first [done | constructor].
  - apply Forall_cons in Hclean as [[[Hdone Htimer] (payload & a & Hread)] Hclean].
    cbn [serve_loop]. rewrite Hread, Hdone, (timer_quiet _ _ Htimer).
    destruct (ReadFromUDP_datagram buf payload a _ Hok)
      as (h' & -> & Hok' & _ & Hseen & Hbytes).
    set (n := length payload `min` MaxDatagramSize) in *.
    destruct (Hbytes n eq_refl) as [Htake Hmsg].
    destruct Hok as (Hl & Hc & _).
    unfold slice_to. rewrite decide_True by lia.
    set (seen := bytes_of h' buf) in *.
    set (st' := mkState (set_heap h' (globals st)) (hstate st)
                  (trace st ++ [EvRead buf n (Some a) None seen])).
    assert (Hmatch : read_matches tk (n, a, seen)).
    { exists payload. by rewrite Hread. }
    destruct (decide (n = 0)) as [Hn | Hn].
    + rewrite doHandle_empty by done.
      destruct (IH st' Hclean Hok') as (tr & Htr & Hcalls & Hmatches & Hreads & Hblocked).
      exists (EvRead buf n (Some a) None seen :: tr).
      split; [by rewrite Htr; simpl; rewrite <- app_assoc |].
      split; [| split; [| split]].
      * simpl. by rewrite filter_cons_False by (simpl; tauto).
      * simpl. by constructor.
      * change (EvRead buf n (Some a) None seen :: tr)
          with ([EvRead buf n (Some a) None seen] ++ tr).
        by rewrite reads_app, datagrams_app, length_app, Hreads.
      * intros Hb. simpl. by rewrite Hblocked.
    + rewrite doHandle_call by done. simpl globals. simpl heap.
      rewrite Hmsg. simpl hstate. simpl trace.
      set (ctx := WithTimeout (WithCancel Background done) HandleTimeout).
      set (w := NewConnectionWriter conn (Some a)).
      set (msg := BytesToMessage (take MaxDatagramSize payload)).
      set (res := Handle (hstate st) ctx w msg (UDPAddrToAddressPort a)).
      set (evs := [EvRead buf n (Some a) None seen;
                   EvHandle ctx w msg (UDPAddrToAddressPort a); EvCancelTimeout]).
      assert (Hcall : call_for done conn (n, a, seen) = (ctx, w, msg, UDPAddrToAddressPort a)).
      { unfold call_for. by rewrite Htake. }
      destruct (res.1) as [e|] eqn:Hres.
      * exists evs. split; [by simpl; rewrite <- app_assoc |].
        split; [| split; [| split]].
        -- simpl. rewrite filter_cons_True by done. simpl.
           by rewrite Htake.
        -- simpl. repeat constructor. done.
        -- done.
        -- done.
      * match goal with |- context [serve_loop script done conn timeout buf ?s] =>
           destruct (IH s Hclean Hok') as (tr & Htr & Hcalls & Hmatches & Hreads & Hblocked)
         end.
        exists (evs ++ tr).
        split; [by rewrite Htr; simpl; rewrite <- !app_assoc |].
        split; [| split; [| split]].
        -- simpl. rewrite filter_cons_True by done. simpl.
           by rewrite Htake, Hcalls.
        -- simpl. by constructor.
        -- by rewrite reads_app, datagrams_app, length_app, Hreads.
        -- intros Hb. simpl. by rewrite Hblocked.
Qed.

Lemma ReadFromUDP_other buf r (h : Heap) p :
  p ≠ s_ptr buf → (ReadFromUDP buf r h).2 !! p = h !! p.
Proof.
  intros Hp. destruct r as [payload a | e]; simpl; [| done].
  by rewrite list_lookup_alter_ne.
Qed.

Lemma serve_loop_heap_frame script done conn timeout buf p : ∀ st,
  p ≠ s_ptr buf →
  heap (globals (serve_loop script done conn timeout buf st).2) !! p
  = heap (globals st) !! p.
Proof.
  intros st Hp. revert st.
  induction script as [|tk script IH]; intros st; [done |].
  cbn [serve_loop].
  pose proof (ReadFromUDP_other buf (tk_read tk) (heap (globals st)) p Hp) as Hr.
  destruct (ReadFromUDP buf (tk_read tk) (heap (globals st)))
    as [[[n sourceAddr] err] h]. simpl in Hr.
  destruct (tk_done tk); [done |].
  destruct (bool_decide (0 < timeout)%Z && negb (tk_reset tk)); [done |].
  destruct err; [done |].
  destruct (slice_to buf n) as [b|]; [| done].
  match goal with |- context [doHandle done b conn sourceAddr ?s] =>
    pose proof (doHandle_frame done b conn sourceAddr s) as Hd;
    destruct (doHandle done b conn sourceAddr s) as [o st2]
  end.
  simpl in Hd. destruct Hd as (_ & Hg & _).
  assert (Hst2 : heap (globals st2) !! p = heap (globals st) !! p).
  { rewrite Hg. simpl. done. }
  destruct o as [[e|]| |]; simpl; try done.
  by rewrite IH.
Qed.

Lemma serve_loop_first_read tk rest done conn timeout buf st :
  buf_ok (heap (globals st)) buf →
  let r := ReadFromUDP buf (tk_read tk) (heap (globals st)) in
  ∃ tr', trace (serve_loop (tk :: rest) done conn timeout buf st).2
         = trace st ++ EvRead buf r.1.1.1 r.1.1.2 r.1.2 (bytes_of r.2 buf) :: tr'.
Proof.
  intros Hok. cbn [serve_loop].
  pose proof (ReadFromUDP_frame buf (tk_read tk) _ Hok) as Hread.
  destruct (ReadFromUDP buf (tk_read tk) (heap (globals st)))
    as [[[n sourceAddr] err] h]. simpl in Hread. destruct Hread as (Hok' & _).
  simpl. set (ev := EvRead buf n sourceAddr err (bytes_of h buf)).
  destruct (tk_done tk); [by exists [] |].
  destruct (bool_decide (0 < timeout)%Z && negb (tk_reset tk)).
  { eexists [_]. simpl. by rewrite <- app_assoc. }
  destruct err as [e|]; [by exists [] |].
  destruct (slice_to buf n) as [b|]; [| by exists []].
  match goal with |- context [doHandle done b conn sourceAddr ?s] =>
    pose proof (doHandle_frame done b conn sourceAddr s) as Hd;
    destruct (doHandle done b conn sourceAddr s) as [o st2]
  end.
  simpl in Hd. destruct Hd as (_ & Hg & _ & tr2 & Htr2 & _).
  assert (Hhere : trace st2 = trace st ++ ev :: tr2).
  { by rewrite Htr2, <- app_assoc. }
  destruct o as [[e|]| |]; simpl; eauto.
  assert (Hok2 : buf_ok (heap (globals st2)) buf) by (by rewrite Hg).
  destruct (serve_loop_frame rest done conn timeout buf st2 Hok2)
    as (_ & _ & _ & _ & _ & tr3 & Htr3 & _).
  exists (tr2 ++ tr3). rewrite Htr3, Hhere, <- app_assoc. done.
Qed.

(** What the first read of a run finds in the buffer: the datagram, cut to
    the buffer, and zeros behind it. *)
Lemma first_read_of_fresh_buffer (h : Heap) payload a :
  let buf := mkSlice (length h) MaxDatagramSize MaxDatagramSize in
  let r := ReadFromUDP buf (Datagram payload a) (h ++ [replicate MaxDatagramSize x00]) in
  r.1 = (length payload `min` MaxDatagramSize, Some a, None) ∧
  bytes_of r.2 buf
  = take MaxDatagramSize payload ++ replicate (MaxDatagramSize - length payload) x00.
Proof.
  intros buf r. unfold r, ReadFromUDP, copy_into, bytes_of. simpl.
  split; [done |].
  set (n := length payload `min` MaxDatagramSize).
  rewrite alter_last.
  rewrite lookup_app_r, Nat.sub_diag by lia. simpl.
  rewrite drop_replicate.
  rewrite take_ge by (rewrite length_app, length_take, length_replicate; lia).
  f_equal.
  - unfold n. destruct (decide (length payload ≤ MaxDatagramSize)).
    + rewrite Nat.min_l by done. by rewrite !take_ge by lia.
    + by rewrite Nat.min_r by lia.
  - f_equal. lia.
Qed.

(** *** The claims about [Serve] *)

(** C1, as amended. While [done] is open, the idle timer has not expired
    and no read fails, the handler is invoked exactly once for every
    datagram read that is not empty, in the order read, never for an empty
    one, and the message it gets is built from the first [n] bytes of the
    read buffer, [n] being the count that read returned (these are the
    datagram's bytes, cut to [MaxDatagramSize]). *)
Theorem each_nonempty_datagram_handled_once
    (script : list Tick) (done : Chan) (conn : UDPConn) (timeout : Z) st :
  Forall (clean timeout) script →
  let res := Serve script done conn timeout st in
  ∃ tr, trace res.2 = trace st ++ tr ∧
        once_per_nonempty_datagram done conn tr ∧
        Forall2 read_matches (take (length (datagrams tr)) script) (datagrams tr) ∧
        reads tr = length (datagrams tr) ∧
        (res.1 = Blocked → length (datagrams tr) = length script).
Proof.
  intros Hclean. rewrite Serve_unfold.
  exact (serve_loop_dispatch script done conn timeout _ _ Hclean (Serve_entry_ok st)).
Qed.

(** C2. When [done] has fired at the check that follows a read, [Serve]
    returns nil; nothing is dispatched for that read, and since the check
    comes before the read's error is looked at, an error of that read is
    not reported. *)
Theorem done_stops_Serve
    (pre : list Tick) tk (post : list Tick) (done : Chan) (conn : UDPConn)
    (timeout : Z) st st1 :
  Serve pre done conn timeout st = (Blocked, st1) →
  tk_done tk = true →
  ∃ st2 buf n sourceAddr err seen,
    Serve (pre ++ tk :: post) done conn timeout st = (Returned None, st2) ∧
    (ReadFromUDP buf (tk_read tk) (heap (globals st1))).1 = (n, sourceAddr, err) ∧
    trace st2 = trace st1 ++ [EvRead buf n sourceAddr err seen] ∧
    hstate st2 = hstate st1 ∧
    calls (trace st2) = calls (trace st1) ∧
    reads (trace st2) = S (reads (trace st1)).
Proof.
  intros Hpre Hdone.
  destruct (Serve_app pre (tk :: post) done conn timeout st st1 Hpre) as [-> _].
  cbn [serve_loop].
  destruct (ReadFromUDP _ (tk_read tk) (heap (globals st1)))
    as [[[n sourceAddr] err] h] eqn:Hread.
  rewrite Hdone. eexists _, _, n, sourceAddr, err, _.
  split; [reflexivity |]. rewrite Hread. simpl.
  split; [done | split; [done | split; [done |]]].
  rewrite calls_app, reads_app. simpl. split; [by rewrite app_nil_r | unfold reads; simpl; lia].
Qed.

(** C3. With an idle timeout greater than zero, on a pass where [done] has
    not fired and the timer reset reports that the timer had expired,
    [Serve] returns nil, whether the read of that pass failed or not, and
    dispatches nothing for it. *)
Theorem expired_timer_stops_Serve
    (pre : list Tick) tk (post : list Tick) (done : Chan) (conn : UDPConn)
    (timeout : Z) st st1 :
  Serve pre done conn timeout st = (Blocked, st1) →
  (0 < timeout)%Z →
  tk_done tk = false →
  tk_reset tk = false →
  ∃ st2 buf n sourceAddr err seen,
    Serve (pre ++ tk :: post) done conn timeout st = (Returned None, st2) ∧
    (ReadFromUDP buf (tk_read tk) (heap (globals st1))).1 = (n, sourceAddr, err) ∧
    trace st2 = trace st1 ++ [EvRead buf n sourceAddr err seen;
                              EvLog "DEBUG: Stop Serve after timeout."] ∧
    hstate st2 = hstate st1 ∧
    calls (trace st2) = calls (trace st1) ∧
    reads (trace st2) = S (reads (trace st1)).
Proof.
  intros Hpre Htimeout Hdone Hreset.
  destruct (Serve_app pre (tk :: post) done conn timeout st st1 Hpre) as [-> _].
  cbn [serve_loop].
  destruct (ReadFromUDP _ (tk_read tk) (heap (globals st1)))
    as [[[n sourceAddr] err] h] eqn:Hread.
  rewrite Hdone, (timer_expired _ _ Htimeout Hreset).
  eexists _, _, n, sourceAddr, err, _.
  split; [reflexivity |]. rewrite Hread. simpl.
  split; [done | split; [by rewrite <- app_assoc | split; [done |]]].
  rewrite <- app_assoc, calls_app, reads_app. simpl.
  split; [by rewrite app_nil_r | unfold reads; simpl; lia].
Qed.

(** C4. On a pass where [done] has not fired and the timer has not
    expired: a failed read makes [Serve] return the read's error, with no
    dispatch and no further read; a handler invocation that returns an
    error makes [Serve] return that error, with no further read. *)
Theorem errors_stop_Serve
    (pre : list Tick) tk (post : list Tick) (done : Chan) (conn : UDPConn)
    (timeout : Z) st st1 :
  Serve pre done conn timeout st = (Blocked, st1) →
  undisturbed timeout tk →
  (∀ e, tk_read tk = ReadError e →
     ∃ st2 buf seen,
       Serve (pre ++ tk :: post) done conn timeout st = (Returned (Some e), st2) ∧
       trace st2 = trace st1 ++ [EvRead buf 0 None (Some e) seen] ∧
       hstate st2 = hstate st1 ∧
       calls (trace st2) = calls (trace st1) ∧
       reads (trace st2) = S (reads (trace st1))) ∧
  (∀ payload a e hs,
     tk_read tk = Datagram payload a →
     length payload `min` MaxDatagramSize ≠ 0 →
     let ctx := WithTimeout (WithCancel Background done) HandleTimeout in
     let w := NewConnectionWriter conn (Some a) in
     let msg := BytesToMessage (take MaxDatagramSize payload) in
     Handle (hstate st1) ctx w msg (UDPAddrToAddressPort a) = (Some e, hs) →
     ∃ st2 buf seen,
       Serve (pre ++ tk :: post) done conn timeout st = (Returned (Some e), st2) ∧
       trace st2 = trace st1 ++
         [EvRead buf (length payload `min` MaxDatagramSize) (Some a) None seen;
          EvHandle ctx w msg (UDPAddrToAddressPort a); EvCancelTimeout] ∧
       hstate st2 = hs ∧
       reads (trace st2) = S (reads (trace st1))).
Proof.
  intros Hpre [Hdone Htimer].
  destruct (Serve_app pre (tk :: post) done conn timeout st st1 Hpre) as [-> Hok].
  cbn [serve_loop]. rewrite Hdone, (timer_quiet _ _ Htimer). split.
  - intros e ->. simpl. eexists _, _, _. split; [reflexivity |]. simpl.
    split; [done | split; [done |]].
    rewrite calls_app, reads_app. simpl.
    split; [by rewrite app_nil_r | unfold reads; simpl; lia].
  - intros payload a e hs -> Hn Hhandle.
    destruct (ReadFromUDP_datagram _ payload a _ Hok)
      as (h' & -> & Hok' & _ & _ & Hbytes).
    destruct (Hbytes _ eq_refl) as [_ Hmsg].
    unfold slice_to. rewrite decide_True by (simpl; lia).
    rewrite doHandle_call by done. simpl globals. simpl heap. simpl hstate.
    rewrite Hmsg, Hhandle. simpl.
    eexists _, _, _. split; [reflexivity |]. simpl.
    split; [by rewrite <- app_assoc | split; [done |]].
    rewrite <- app_assoc, reads_app. unfold reads; simpl; lia.
Qed.

(** C6. A read that returns zero bytes is no work for the dispatch step:
    [doHandle] on an empty slice invokes nothing and returns nil, and
    [Serve] goes on to its next read with nothing changed but the record
    of the read. *)
Theorem empty_datagram_is_skipped
    (pre : list Tick) tk (post : list Tick) (done : Chan) (conn : UDPConn)
    (timeout : Z) st st1 payload a :
  Serve pre done conn timeout st = (Blocked, st1) →
  undisturbed timeout tk →
  tk_read tk = Datagram payload a →
  length payload `min` MaxDatagramSize = 0 →
  (∀ (b : Slice) sourceAddr st', s_len b = 0 →
     doHandle done b conn sourceAddr st' = (Returned None, st')) ∧
  ∃ buf seen,
    let st2 := mkState (globals st1) (hstate st1)
                 (trace st1 ++ [EvRead buf 0 (Some a) None seen]) in
    Serve (pre ++ [tk]) done conn timeout st = (Blocked, st2) ∧
    Serve (pre ++ tk :: post) done conn timeout st
    = serve_loop post done conn timeout buf st2.
Proof.
  intros Hpre [Hdone Htimer] Hread Hn.
  split; [intros; by apply doHandle_empty |].
  assert (Hstep : ∀ rest,
    Serve (pre ++ tk :: rest) done conn timeout st =
    serve_loop rest done conn timeout
      (mkSlice (length (heap (globals st))) MaxDatagramSize MaxDatagramSize)
      (mkState (globals st1) (hstate st1)
         (trace st1 ++
            [EvRead (mkSlice (length (heap (globals st))) MaxDatagramSize MaxDatagramSize)
               0 (Some a) None
               (bytes_of (heap (globals st1))
                  (mkSlice (length (heap (globals st))) MaxDatagramSize MaxDatagramSize))]))).
  { intros rest.
    destruct (Serve_app pre (tk :: rest) done conn timeout st st1 Hpre) as [-> Hok].
    cbn [serve_loop]. rewrite Hread, Hdone, (timer_quiet _ _ Htimer).
    unfold ReadFromUDP, copy_into. simpl s_len. rewrite Hn. simpl take.
    rewrite (list_alter_id (λ arr, [] ++ drop 0 arr)) by done.
    unfold slice_to. rewrite decide_True by lia.
    rewrite doHandle_empty by done.
    by destruct st1 as [[? ? ?] ? ?]. }
  eexists _, _. split; [apply (Hstep []) | apply Hstep].
Qed.

(** C7, as amended. The buffer [Serve] reads into is allocated by [Serve]
    itself: the run adds exactly one array to the heap, of
    [MaxDatagramSize] bytes, at a place that was free before, and leaves
    every other array as it was; the array is zero-filled when the loop
    is entered, so that the first read finds zeros behind the datagram;
    every read of the run goes to this buffer; and [Serve] does not touch
    the Buffer Pool: the pool's globals are after the run what they were
    before. *)
Theorem Serve_buffer_is_fresh
    (script : list Tick) (done : Chan) (conn : UDPConn) (timeout : Z) st :
  let buf := mkSlice (length (heap (globals st))) MaxDatagramSize MaxDatagramSize in
  let res := Serve script done conn timeout st in
  Serve_buffer (globals st) =
    (buf, set_heap (heap (globals st) ++ [replicate MaxDatagramSize x00]) (globals st)) ∧
  heap (globals st) !! s_ptr buf = None ∧
  singletonBufferPool (globals res.2) = singletonBufferPool (globals st) ∧
  once (globals res.2) = once (globals st) ∧
  (∃ tr, trace res.2 = trace st ++ tr ∧ Forall (λ b, b = buf) (read_buffers tr)) ∧
  length (heap (globals res.2)) = S (length (heap (globals st))) ∧
  (∀ p arr, heap (globals st) !! p = Some arr →
            heap (globals res.2) !! p = Some arr) ∧
  (∃ arr, heap (globals res.2) !! s_ptr buf = Some arr ∧
          length arr = MaxDatagramSize) ∧
  (script = [] →
     heap (globals res.2) = heap (globals st) ++ [replicate MaxDatagramSize x00]) ∧
  (∀ tk rest payload a,
     script = tk :: rest → tk_read tk = Datagram payload a →
     ∃ tr', trace res.2 =
            trace st ++
            EvRead buf (length payload `min` MaxDatagramSize) (Some a) None
              (take MaxDatagramSize payload
               ++ replicate (MaxDatagramSize - length payload) x00) :: tr').
Proof.
  intros buf res. split; [done |].
  split; [by apply lookup_ge_None_2 |].
  unfold res. rewrite Serve_unfold.
  pose proof (serve_loop_frame script done conn timeout _ _ (Serve_entry_ok st)) as Hf.
  cbv zeta in Hf. destruct Hf as (Hok & Hlen & Hs & Ho & _ & Htr).
  split; [done | split; [done | split; [done |]]].
  split; [rewrite Hlen; simpl; rewrite length_app; simpl; lia |].
  split.
  { intros p arr Hp. pose proof (lookup_lt_Some _ _ _ Hp) as Hlt.
    rewrite serve_loop_heap_frame by (simpl; lia). simpl.
    by rewrite lookup_app_l. }
  split; [by destruct Hok as (_ & _ & Harr) |].
  split; [by intros -> |].
  intros tk rest payload a -> Hread.
  destruct (serve_loop_first_read tk rest done conn timeout _ _ (Serve_entry_ok st))
    as (tr' & Htr').
  exists tr'. etrans; [exact Htr' |]. simpl trace. simpl heap. rewrite Hread.
  destruct (first_read_of_fresh_buffer (heap (globals st)) payload a) as [H1 H2].
  fold buf in H1, H2 |- *. by rewrite H1, H2.
Qed.

End ServeFacts.

(** * Further properties *)

(** ** The buffer pool *)

Section BufferPoolMore.

Context `{pkg : Package}.

Lemma start_live h : pool_live (start h).
Proof. intros ?. discriminate. Qed.

Lemma GetBufferPool_live g :
  pool_live g →
  ∃ bp, singletonBufferPool (GetBufferPool g) = Some bp ∧
        once (GetBufferPool g) = true ∧ heap (GetBufferPool g) = heap g.
Proof.
  unfold pool_live, GetBufferPool. intros Hg.
  destruct (once g) eqn:Ho; simpl; [| eauto].
  destruct (Hg eq_refl) as [bp Hbp]. eauto.
Qed.

Lemma pool_step_live op g :
  pool_live g → ∃ xs g', pool_step op g = Some (xs, g') ∧ pool_live g'.
Proof.
  intros Hg. destruct op as [pick|buffer|b data|]; cbn [pool_step].
  - destruct (GetBufferPool_live g Hg) as (bp & Hbp & _ & _).
    unfold Get. rewrite Hbp.
    destruct (syncPool.Get newBuffer pick (pool bp) _) as [[x p] h].
    simpl. eexists _, _. split; [reflexivity |]. intros _. simpl. eauto.
  - destruct (GetBufferPool_live g Hg) as (bp & Hbp & _ & _).
    unfold Put. rewrite Hbp.
    simpl. eexists _, _. split; [reflexivity |]. intros _. simpl. eauto.
  - eexists _, _. split; [reflexivity |]. exact Hg.
  - eexists _, _. split; [reflexivity |]. intros Ho. simpl in *.
    destruct (Hg Ho) as [bp ->]. simpl. eauto.
Qed.

Lemma pool_run_live ops : ∀ g,
  pool_live g → ∃ xs g', pool_run ops g = Some (xs, g') ∧ pool_live g'.
Proof.
  induction ops as [|op ops IH]; intros g Hg.
  - eexists _, _. split; [reflexivity | done].
  - destruct (pool_step_live op g Hg) as (xs & g1 & Hstep & Hg1).
    destruct (IH g1 Hg1) as (ys & g2 & Hrun & Hg2).
    exists (xs ++ ys), g2. split; [| done].
    cbn [pool_run]. rewrite Hstep. cbn. rewrite Hrun. reflexivity.
Qed.

(** X1. In a process that starts without a pool, no sequence of uses of
    the pool panics on a nil pool, whatever is put into it, and after it
    [GetBufferPool] still returns a pool that is there. *)
Theorem pool_never_nil (h0 : Heap) (ops : list PoolOp) :
  ∃ xs g, pool_run ops (start h0) = Some (xs, g) ∧
          is_Some (singletonBufferPool (GetBufferPool g)).
Proof.
  destruct (pool_run_live ops (start h0) (start_live h0)) as (xs & g & Hrun & Hg).
  exists xs, g. split; [done |].
  destruct (GetBufferPool_live g Hg) as (bp & -> & _). eauto.
Qed.

(** X2. A buffer put into the pool is the one the next [Get] returns when
    the runtime picks the newest item, and the pool is then as it was
    before the [Put]: the same slice header comes back, length and
    capacity as given. *)
Theorem Put_then_Get (g : Globals) (buffer : Slice) :
  pool_live g →
  ∃ g1, Put buffer (GetBufferPool g) = Some g1 ∧
        Get (Some 0) (GetBufferPool g1) = Some (buffer, GetBufferPool g).
Proof.
  intros Hg. destruct (GetBufferPool_live g Hg) as (bp & Hbp & Ho & _).
  unfold Put. rewrite Hbp. eexists. split; [reflexivity |].
  destruct (GetBufferPool g) as [h s o]. simpl in *. subst s o.
  unfold GetBufferPool, Get. simpl.
  by destruct bp as [[items]].
Qed.

Lemma not_elem_of_delete_NoDup {A} (l : list A) i x :
  NoDup l → l !! i = Some x → x ∉ delete i l.
Proof.
  intros Hnd Hi. rewrite delete_take_drop.
  rewrite <- (take_drop_middle l i x Hi) in Hnd.
  apply NoDup_app in Hnd as (_ & Hdisj & Hnd).
  apply NoDup_cons in Hnd as [Hx _].
  rewrite elem_of_app. intros [Hin | Hin]; [| done].
  apply (Hdisj x Hin). by left.
Qed.

(** X3. A pool in which no backing array occurs twice never hands one
    array to two borrowers: two [Get]s in a row, with nothing put back in
    between, return buffers over different arrays, whatever the runtime
    picks, and the pool stays free of duplicates. *)
Theorem Get_twice_distinct (g : Globals) (p1 p2 : option nat)
    (x y : Slice) (g1 g2 : Globals) :
  pool_sound g →
  Get p1 g = Some (x, g1) →
  Get p2 g1 = Some (y, g2) →
  s_ptr x ≠ s_ptr y ∧ pool_sound g2.
Proof.
  assert (Hstep : ∀ g p x g1,
    pool_sound g → Get p g = Some (x, g1) →
    pool_sound g1 ∧ s_ptr x < length (heap g1) ∧ length (heap g) ≤ length (heap g1) ∧
    ∃ bp1, singletonBufferPool g1 = Some bp1 ∧
           (s_ptr x ∉ (s_ptr <$> syncPool.items (pool bp1))) ∧
           (s_ptr x < length (heap g) ∨ s_ptr x = length (heap g))).
  { clear. intros g p x g1. unfold pool_sound, Get.
    destruct (singletonBufferPool g) as [bp|]; [| discriminate].
    intros [Hnd Hall]. unfold syncPool.Get, newBuffer, make.
    assert (Hfresh :
      pool_sound (mkGlobals (heap g ++ [replicate MaxDatagramSize x00])
                    (Some (mkBufferPool (pool bp))) (once g)) ∧
      length (heap g) ∉ (s_ptr <$> syncPool.items (pool bp))).
    { split.
      - unfold pool_sound. simpl. split; [done |].
        eapply Forall_impl; [exact Hall |]. intros z Hz. simpl in Hz.
        rewrite length_app. simpl. lia.
      - intros (z & Hz & Hin)%list_elem_of_fmap.
        rewrite Forall_forall in Hall. specialize (Hall z Hin). simpl in Hall. lia. }
    destruct p as [i|]; [destruct (syncPool.items (pool bp) !! i) as [z|] eqn:Hi |];
      intros [= <- <-]; simpl.
    - pose proof (Forall_lookup_1 _ _ _ _ Hall Hi) as Hz. simpl in Hz.
      split; [| split; [done | split; [done |]]].
      + split.
        * rewrite list_fmap_delete. eapply sublist_NoDup; [exact Hnd | apply sublist_delete].
        * by apply Forall_delete.
      + eexists. split; [reflexivity |]. simpl. split; [| by left].
        rewrite list_fmap_delete. apply not_elem_of_delete_NoDup; [done |].
        by rewrite list_lookup_fmap, Hi.
    - destruct Hfresh as [Hs Hnotin]. destruct bp as [p]. simpl in *.
      split; [done |]. rewrite length_app. simpl.
      split; [lia | split; [lia |]]. eexists. split; [reflexivity |]. auto.
    - destruct Hfresh as [Hs Hnotin]. destruct bp as [p]. simpl in *.
      split; [done |]. rewrite length_app. simpl.
      split; [lia | split; [lia |]]. eexists. split; [reflexivity |]. auto. }
  intros Hg H1 H2.
  destruct (Hstep _ _ _ _ Hg H1) as (Hg1 & Hx & _ & bp1 & Hbp1 & Hnotin & _).
  destruct (Hstep _ _ _ _ Hg1 H2) as (Hg2 & _ & _ & _ & _ & _ & Hy).
  split; [| done].
  destruct Hy as [Hy | Hy]; [| lia].
  (* y was taken from the pool of g1, where x no longer is *)
  revert H2. unfold Get. rewrite Hbp1. unfold syncPool.Get, newBuffer, make.
  destruct p2 as [i|]; [destruct (syncPool.items (pool bp1) !! i) as [z|] eqn:Hi |];
    intros [= <- <-]; simpl in *; try lia.
  intros Heq. apply Hnotin. rewrite Heq.
  apply list_elem_of_fmap. exists z. split; [done |].
  by eapply list_elem_of_lookup_2.
Qed.

End BufferPoolMore.

(** ** The socket factory *)

Section FactoryMore.

Context `{pkg : Package}.
Variable os : OS.

Lemma factory_spec_frame kind open_fault addr net r :
  factory_spec os kind open_fault addr net r →
  (∀ i s, net !! i = Some s → r.2 !! i = Some s) ∧
  (r.2 = net ∨ ∃ s, r.2 = net ++ [s]) ∧
  (∀ c, r.1.1 = Some c → c = length net) ∧
  (is_Some r.1.1 ↔ r.1.2 = None).
Proof.
  assert (Hnone : ∀ e : error, (is_Some (@None UDPConn) ↔ Some e = None)).
  { intros e. split; [by intros [? ?] | done]. }
  assert (Hgrow : ∀ (s : Socket) i s0, net !! i = Some s0 → (net ++ [s]) !! i = Some s0).
  { intros s i s0 Hi. by apply lookup_app_l_Some. }
  destruct 1; subst; simpl;
    (split; [by auto | split; [by eauto | split; [by intros ? [= <-] |]]]);
    try apply Hnone.
  split; [done | eauto].
Qed.

(** X4. [Dial] and [Listen] change no socket that is already open and open
    at most one; a connection they return is the socket they opened, never
    one that was there before. *)
Theorem factory_keeps_sockets (addr : string) (net : Net) :
  let d := Dial os addr net in
  let l := Listen os addr net in
  ((∀ i s, net !! i = Some s → d.2 !! i = Some s) ∧
   (d.2 = net ∨ ∃ s, d.2 = net ++ [s]) ∧
   (∀ c, d.1.1 = Some c → net !! c = None ∧ is_Some (d.2 !! c))) ∧
  ((∀ i s, net !! i = Some s → l.2 !! i = Some s) ∧
   (l.2 = net ∨ ∃ s, l.2 = net ++ [s]) ∧
   (∀ c, l.1.1 = Some c → net !! c = None ∧ is_Some (l.2 !! c))).
Proof.
  assert (Hgen : ∀ kind open_fault r,
    factory_spec os kind open_fault addr net r →
    (∀ i s, net !! i = Some s → r.2 !! i = Some s) ∧
    (r.2 = net ∨ ∃ s, r.2 = net ++ [s]) ∧
    (∀ c, r.1.1 = Some c → net !! c = None ∧ is_Some (r.2 !! c))).
  { intros kind open_fault r Hr.
    destruct (factory_spec_frame _ _ _ _ _ Hr) as (Hkeep & Hgrow & Hconn & _).
    split; [done | split; [done |]]. intros c Hc.
    split; [apply lookup_ge_None_2; rewrite (Hconn c Hc); lia |].
    inversion Hr; subst; simpl in *; try discriminate.
    injection Hc as <-. rewrite lookup_app_r, Nat.sub_diag by lia. eauto. }
  intros d l. split.
  - apply (Hgen Connected (os_dial os)), Dial_spec.
  - apply (Hgen Bound (os_listen os)), Listen_spec.
Qed.

(** X5. Of the two results of [Dial], and of [Listen], exactly one is nil:
    there is a connection if and only if there is no error. *)
Theorem factory_result_exclusive (addr : string) (net : Net) :
  (is_Some (Dial os addr net).1.1 ↔ (Dial os addr net).1.2 = None) ∧
  (is_Some (Listen os addr net).1.1 ↔ (Listen os addr net).1.2 = None).
Proof.
  split.
  - exact (proj2 (proj2 (proj2 (factory_spec_frame _ _ _ _ _ (Dial_spec os addr net))))).
  - exact (proj2 (proj2 (proj2 (factory_spec_frame _ _ _ _ _ (Listen_spec os addr net))))).
Qed.

(** X6. On any connection, [setSRCSConnectionOptions] keeps the number of
    sockets, every other socket and the kind of every socket; when it
    returns nil the socket of the connection has both sizes set to
    [MaxDatagramSize]; when the first option fails nothing is changed, the
    second option is not tried and the first error is the one returned. *)
Theorem setSRCSConnectionOptions_effect (c : UDPConn) (net : Net) :
  let r := setSRCSConnectionOptions os c net in
  length r.2 = length net ∧
  (∀ i, i ≠ c → r.2 !! i = net !! i) ∧
  sk_kind <$> r.2 = sk_kind <$> net ∧
  (r.1 = None →
     r.2 !! c = (λ s, mkSocket (sk_kind s) (Some MaxDatagramSize) (Some MaxDatagramSize))
                <$> net !! c) ∧
  (∀ e, os_setwbuf os net c MaxDatagramSize = Some e → r = (Some e, net)).
Proof.
  unfold setSRCSConnectionOptions, SetWriteBuffer, SetReadBuffer.
  assert (Hkind : ∀ (f : Socket → Socket) (n : Net),
            (∀ s, sk_kind (f s) = sk_kind s) →
            sk_kind <$> alter f c n = sk_kind <$> n).
  { intros f n Hf. apply list_eq. intros i.
    rewrite !list_lookup_fmap.
    destruct (decide (c = i)) as [-> | Hne].
    - rewrite list_lookup_alter_eq. destruct (n !! i); simpl; [by rewrite Hf | done].
    - by rewrite list_lookup_alter_ne. }
  destruct (os_setwbuf os net c MaxDatagramSize) as [e|] eqn:Hw.
  { simpl. repeat (split; [done |]). by intros ? [= <-]. }
  destruct (os_setrbuf os _ c MaxDatagramSize) as [e|] eqn:Hr; simpl.
  - rewrite length_alter. split; [done |].
    split; [by intros i Hi; rewrite list_lookup_alter_ne |].
    split; [by apply Hkind |]. done.
  - rewrite !length_alter. split; [done |].
    split; [by intros i Hi; rewrite !list_lookup_alter_ne |].
    split; [by rewrite !Hkind |]. split; [| done]. intros _.
    rewrite !list_lookup_alter_eq, <- option_fmap_compose.
    by apply option_fmap_ext.
Qed.

End FactoryMore.

(** ** The serve loop *)

Section ServeMore.

Context `{pkg : Package} {H : Type} `{hd : !Handler H}.

Implicit Types (st : State (H:=H)) (tr : list Event) (tk : Tick).

(** The three ways [doHandle] can go. *)
Lemma doHandle_cases done b conn sourceAddr st :
  (s_len b = 0 ∧ doHandle done b conn sourceAddr st = (Returned None, st)) ∨
  (s_len b ≠ 0 ∧ sourceAddr = None ∧
   doHandle done b conn sourceAddr st = (Panicked, emit [EvCancelTimeout] st)) ∨
  (s_len b ≠ 0 ∧ ∃ a, sourceAddr = Some a ∧
   let ctx := WithTimeout (WithCancel Background done) HandleTimeout in
   let w := NewConnectionWriter conn (Some a) in
   let msg := BytesToMessage (bytes_of (heap (globals st)) b) in
   let res := Handle (hstate st) ctx w msg (UDPAddrToAddressPort a) in
   doHandle done b conn sourceAddr st =
   (Returned res.1,
    mkState (globals st) res.2
      (trace st ++ [EvHandle ctx w msg (UDPAddrToAddressPort a); EvCancelTimeout]))).
Proof.
  destruct (decide (s_len b = 0)) as [Hn | Hn].
  - left. split; [done | by apply doHandle_empty].
  - right. destruct sourceAddr as [a|].
    + right. split; [done |]. exists a. split; [done |]. by apply doHandle_call.
    + left. split; [done | split; [done |]]. unfold doHandle.
      by rewrite decide_False by done.
Qed.

(** X7. Running [Serve] on a longer input: if it has returned (or
    panicked) on the first part, what comes after changes nothing, state
    and trace included; if it is back in its read, it goes on from the
    state reached, with the buffer it allocated at the start. *)
Theorem Serve_extends
    (pre rest : list Tick) (done : Chan) (conn : UDPConn) (timeout : Z) st :
  Serve (pre ++ rest) done conn timeout st =
  match Serve pre done conn timeout st with
  | (Blocked, st1) =>
      serve_loop rest done conn timeout
        (mkSlice (length (heap (globals st))) MaxDatagramSize MaxDatagramSize) st1
  | res => res
  end.
Proof. rewrite !Serve_unfold. apply serve_loop_app. Qed.

Lemma handled_nil_calls tr (hs : H) o :
  calls tr = [] → handled hs (calls tr) o hs.
Proof. by intros ->. Qed.

Lemma serve_loop_handled script done conn timeout buf : ∀ st,
  let res := serve_loop script done conn timeout buf st in
  ∃ tr, trace res.2 = trace st ++ tr ∧
        handled (hstate st) (calls tr) res.1 (hstate res.2).
Proof.
  induction script as [|tk script IH]; intros st.
  - simpl. exists []. by rewrite app_nil_r.
  - cbn [serve_loop].
    destruct (ReadFromUDP buf (tk_read tk) (heap (globals st)))
      as [[[n sourceAddr] err] h].
    set (ev := EvRead buf n sourceAddr err (bytes_of h buf)).
    destruct (tk_done tk); [by exists [ev] |].
    destruct (bool_decide (0 < timeout)%Z && negb (tk_reset tk)).
    { exists [ev; EvLog "DEBUG: Stop Serve after timeout."].
      split; [by simpl; rewrite <- app_assoc | done]. }
    destruct err as [e|]; [by exists [ev] |].
    destruct (slice_to buf n) as [b|]; [| by exists [ev]].
    match goal with |- context [doHandle done b conn sourceAddr ?s] =>
      destruct (doHandle_cases done b conn sourceAddr s)
        as [[_ ->] | [(_ & _ & ->) | (_ & a & -> & ->)]]
    end.
    + match goal with |- context [serve_loop script done conn timeout buf ?s] =>
        destruct (IH s) as (tr & Htr & Hh)
      end.
      exists (ev :: tr). split; [by rewrite Htr; simpl; rewrite <- app_assoc | done].
    + exists [ev; EvCancelTimeout]. split; [by simpl; rewrite <- app_assoc | done].
    + simpl globals. simpl hstate. simpl trace.
      set (ctx := WithTimeout (WithCancel Background done) HandleTimeout).
      set (w := NewConnectionWriter conn (Some a)).
      set (msg := BytesToMessage _).
      destruct (Handle (hstate st) ctx w msg (UDPAddrToAddressPort a))
        as [[e|] hs1] eqn:Hres; simpl.
      * exists [ev; EvHandle ctx w msg (UDPAddrToAddressPort a); EvCancelTimeout].
        split; [by rewrite <- app_assoc |]. simpl. by rewrite Hres.
      * match goal with |- context [serve_loop script done conn timeout buf ?s] =>
          destruct (IH s) as (tr & Htr & Hh)
        end.
        exists (ev :: EvHandle ctx w msg (UDPAddrToAddressPort a) :: EvCancelTimeout :: tr).
        split; [by rewrite Htr; simpl; rewrite <- !app_assoc |].
        simpl. by rewrite Hres.
Qed.

(** X8. In every run the handler is invoked one call after the other, each
    invocation on the state the previous one left; every invocation but
    the last returned nil, and if the last returned an error that error
    is what [Serve] returns. Nothing else changes the handler's state. *)
Theorem Serve_handler_sequence
    (script : list Tick) (done : Chan) (conn : UDPConn) (timeout : Z) st :
  let res := Serve script done conn timeout st in
  ∃ tr, trace res.2 = trace st ++ tr ∧
        handled (hstate st) (calls tr) res.1 (hstate res.2).
Proof.
  rewrite Serve_unfold.
  exact (serve_loop_handled script done conn timeout _ (mkState _ _ _)).
Qed.

Lemma serve_loop_shaped script done conn timeout buf : ∀ st,
  buf_ok (heap (globals st)) buf →
  let res := serve_loop script done conn timeout buf st in
  ∃ tr, trace res.2 = trace st ++ tr ∧ shaped done conn tr.
Proof.
  induction script as [|tk script IH]; intros st Hok.
  - simpl. exists []. rewrite app_nil_r. split; [done | constructor].
  - cbn [serve_loop]. destruct (tk_read tk) as [payload a | e].
    + destruct (ReadFromUDP_datagram buf payload a _ Hok)
        as (h' & -> & Hok' & _ & _ & Hbytes).
      set (n := length payload `min` MaxDatagramSize) in *.
      destruct (Hbytes n eq_refl) as [Htake Hmsg].
      set (ev := EvRead buf n (Some a) None (bytes_of h' buf)).
      destruct (tk_done tk).
      { exists [ev]. split; [done | repeat constructor]. }
      destruct (bool_decide (0 < timeout)%Z && negb (tk_reset tk)).
      { eexists [ev; _]. split; [by simpl; rewrite <- app_assoc | apply shaped_timeout]. }
      destruct Hok as (Hl & Hc & _).
      unfold slice_to. rewrite decide_True by lia.
      destruct (decide (n = 0)) as [Hn | Hn].
      * rewrite doHandle_empty by done.
        match goal with |- context [serve_loop script done conn timeout buf ?s] =>
          destruct (IH s Hok') as (tr & Htr & Hsh)
        end.
        exists (ev :: tr). split; [by rewrite Htr; simpl; rewrite <- app_assoc |].
        by constructor.
      * rewrite doHandle_call by done. simpl globals. simpl heap.
        rewrite Hmsg. simpl hstate. simpl trace.
        set (ctx := WithTimeout (WithCancel Background done) HandleTimeout).
        set (w := NewConnectionWriter conn (Some a)).
        set (msg := BytesToMessage (take MaxDatagramSize payload)).
        assert (Hcall : (ctx, w, msg, UDPAddrToAddressPort a)
                        = call_for done conn (n, a, bytes_of h' buf)).
        { unfold call_for. by rewrite Htake. }
        destruct (Handle (hstate st) ctx w msg (UDPAddrToAddressPort a))
          as [[e|] hs1]; simpl.
        -- eexists [ev; _; _]. split; [by rewrite <- app_assoc |].
           apply shaped_dispatch; [done | done | constructor].
        -- match goal with |- context [serve_loop script done conn timeout buf ?s] =>
             destruct (IH s Hok') as (tr & Htr & Hsh)
           end.
           exists (ev :: EvHandle ctx w msg (UDPAddrToAddressPort a)
                      :: EvCancelTimeout :: tr).
           split; [by rewrite Htr; simpl; rewrite <- !app_assoc |].
           by apply shaped_dispatch.
    + simpl.
      set (ev := EvRead buf 0 None (Some e) (bytes_of (heap (globals st)) buf)).
      destruct (tk_done tk).
      { exists [ev]. split; [done | repeat constructor]. }
      destruct (bool_decide (0 < timeout)%Z && negb (tk_reset tk)).
      { eexists [ev; _]. split; [by simpl; rewrite <- app_assoc | apply shaped_timeout]. }
      exists [ev]. split; [done | repeat constructor].
Qed.

(** X9. What any run adds to the trace is a sequence of passes: every
    handler invocation comes right after the read of a datagram that is
    not empty and is given that datagram's first [n] bytes, a writer for
    its sender and its sender's address; the deferred cancel of the
    timeout context follows every invocation at once and occurs nowhere
    else; the timer's log line can only end the trace. *)
Theorem Serve_trace_shape
    (script : list Tick) (done : Chan) (conn : UDPConn) (timeout : Z) st :
  let res := Serve script done conn timeout st in
  ∃ tr, trace res.2 = trace st ++ tr ∧ shaped done conn tr.
Proof.
  rewrite Serve_unfold.
  exact (serve_loop_shaped script done conn timeout _ _ (Serve_entry_ok st)).
Qed.

Lemma timer_quiet_inv timeout tk :
  bool_decide (0 < timeout)%Z && negb (tk_reset tk) = false →
  (timeout ≤ 0)%Z ∨ tk_reset tk = true.
Proof.
  destruct (tk_reset tk); [by right |]. rewrite andb_true_r.
  intros Hb%bool_decide_eq_false. left. lia.
Qed.

Lemma timer_expired_inv timeout tk :
  bool_decide (0 < timeout)%Z && negb (tk_reset tk) = true →
  (0 < timeout)%Z ∧ tk_reset tk = false.
Proof.
  intros [Hb Hr]%andb_prop. apply bool_decide_eq_true in Hb.
  split; [done |]. by destruct (tk_reset tk).
Qed.

Lemma serve_loop_cause script done conn timeout buf : ∀ st,
  let res := serve_loop script done conn timeout buf st in
  (res.1 = Returned None →
     ∃ pre tk post, script = pre ++ tk :: post ∧
       (tk_done tk = true ∨ ((0 < timeout)%Z ∧ tk_reset tk = false))) ∧
  (∀ e, res.1 = Returned (Some e) →
     (∃ pre tk post, script = pre ++ tk :: post ∧ tk_read tk = ReadError e) ∨
     (∃ hs ctx w msg a, (Handle hs ctx w msg a).1 = Some e)) ∧
  (res.1 = Blocked → Forall (clean timeout) script).
Proof.
  induction script as [|tk script IH]; intros st.
  - simpl. split; [done | split; [done | constructor]].
  - cbn [serve_loop].
    assert (Hhere : ∀ P : Tick → Prop, P tk → ∃ pre tk' post,
              tk :: script = pre ++ tk' :: post ∧ P tk').
    { intros P HP. by exists [], tk, script. }
    assert (Hlater : ∀ P : Tick → Prop,
              (∃ pre tk' post, script = pre ++ tk' :: post ∧ P tk') →
              ∃ pre tk' post, tk :: script = pre ++ tk' :: post ∧ P tk').
    { intros P (pre & tk' & post & -> & HP). by exists (tk :: pre), tk', post. }
    destruct (tk_read tk) as [payload a | e0] eqn:Hread; simpl.
    + destruct (tk_done tk) eqn:Hdone.
      { simpl. split; [intros _; apply (Hhere (λ t, _ ∨ _)); by left |].
        split; [done | done]. }
      destruct (bool_decide (0 < timeout)%Z && negb (tk_reset tk)) eqn:Htimer.
      { simpl. apply timer_expired_inv in Htimer.
        split; [intros _; apply (Hhere (λ t, _ ∨ _)); by right |].
        split; [done | done]. }
      apply timer_quiet_inv in Htimer.
      assert (Hclean : clean timeout tk).
      { split; [done | eauto]. }
      destruct (slice_to buf _) as [b|]; [| by simpl].
      match goal with |- context [doHandle done b conn (Some a) ?s] =>
        destruct (doHandle_cases done b conn (Some a) s)
          as [[_ ->] | [(_ & ? & _) | (_ & a' & [= <-] & ->)]]; [| done |]
      end.
      * match goal with |- context [serve_loop script done conn timeout buf ?s] =>
          destruct (IH s) as (Hnil & Herr & Hblocked)
        end.
        split; [intros Hr; apply (Hlater (λ t, _ ∨ _)); auto |].
        split; [| intros Hb; constructor; auto].
        intros e He. destruct (Herr e He) as [Hr | Hh]; [left | by right].
        by apply (Hlater (λ t, tk_read t = ReadError e)).
      * simpl globals. simpl hstate. simpl trace.
        destruct (Handle (hstate st) _ _ _ _) as [[e|] hs1] eqn:Hres; simpl.
        -- split; [done | split; [| done]]. intros ? [= <-]. right.
           eexists _, _, _, _, _. by rewrite Hres.
        -- match goal with |- context [serve_loop script done conn timeout buf ?s] =>
             destruct (IH s) as (Hnil & Herr & Hblocked)
           end.
           split; [intros Hr; apply (Hlater (λ t, _ ∨ _)); auto |].
           split; [| intros Hb; constructor; auto].
           intros e He. destruct (Herr e He) as [Hr | Hh]; [left | by right].
           by apply (Hlater (λ t, tk_read t = ReadError e)).
    + destruct (tk_done tk) eqn:Hdone.
      { simpl. split; [intros _; apply (Hhere (λ t, _ ∨ _)); by left |].
        split; [done | done]. }
      destruct (bool_decide (0 < timeout)%Z && negb (tk_reset tk)) eqn:Htimer.
      { simpl. apply timer_expired_inv in Htimer.
        split; [intros _; apply (Hhere (λ t, _ ∨ _)); by right |].
        split; [done | done]. }
      simpl. split; [done | split; [| done]]. intros ? [= <-]. left.
      by apply (Hhere (λ t, tk_read t = ReadError e0)).
Qed.

Lemma serve_loop_stopping_pass script done conn timeout buf : ∀ st o st',
  serve_loop script done conn timeout buf st = (o, st') →
  o ≠ Blocked →
  ∃ pre tk post st1,
    script = pre ++ tk :: post ∧
    serve_loop pre done conn timeout buf st = (Blocked, st1) ∧
    serve_loop [tk] done conn timeout buf st1 = (o, st').
Proof.
  induction script as [|tk script IH]; intros st o st' Hrun Ho.
  - simpl in Hrun. congruence.
  - change (tk :: script) with ([tk] ++ script) in Hrun.
    rewrite serve_loop_app in Hrun.
    destruct (serve_loop [tk] done conn timeout buf st) as [o1 st2] eqn:Hpass.
    destruct o1 as [err | |].
    + exists [], tk, script, st. split; [done |]. split; [done |]. by rewrite Hpass.
    + exists [], tk, script, st. split; [done |]. split; [done |]. by rewrite Hpass.
    + destruct (IH st2 o st' Hrun Ho) as (pre & tk' & post & st1 & -> & Hpre & Hlast).
      exists (tk :: pre), tk', post, st1. split; [done |]. split; [| done].
      change (tk :: pre) with ([tk] ++ pre). by rewrite serve_loop_app, Hpass.
Qed.

Lemma serve_loop_one_pass tk done conn timeout buf st o st' :
  buf_ok (heap (globals st)) buf →
  serve_loop [tk] done conn timeout buf st = (o, st') →
  (∃ tr, trace st' = trace st ++ tr ∧ reads tr = 1) ∧
  (∀ err, o = Returned err →
          stop_cause done conn timeout tk (hstate st) (hstate st') err).
Proof.
  intros Hok. cbn [serve_loop]. destruct (tk_read tk) as [payload a | e0] eqn:Hread.
  - destruct (ReadFromUDP_datagram buf payload a _ Hok)
      as (h' & -> & Hok' & _ & _ & Hbytes).
    set (n := length payload `min` MaxDatagramSize) in *.
    destruct (Hbytes n eq_refl) as [_ Hmsg].
    set (ev := EvRead buf n (Some a) None (bytes_of h' buf)).
    destruct (tk_done tk) eqn:Hdone.
    { intros [= <- <-]. split; [by exists [ev] |]. intros ? [= <-]. by left. }
    destruct (bool_decide (0 < timeout)%Z && negb (tk_reset tk)) eqn:Htimer.
    { intros [= <- <-]. apply timer_expired_inv in Htimer as [? ?].
      split; [eexists [ev; _]; by simpl; rewrite <- app_assoc |].
      intros ? [= <-]. right. done. }
    apply timer_quiet_inv in Htimer.
    destruct Hok as (Hl & Hc & _).
    unfold slice_to. rewrite decide_True by lia.
    destruct (decide (n = 0)) as [Hn | Hn].
    + rewrite doHandle_empty by done. intros [= <- <-].
      split; [by exists [ev] | done].
    + rewrite doHandle_call by done. simpl globals. simpl heap.
      rewrite Hmsg. simpl hstate. simpl trace.
      destruct (Handle (hstate st) _ _ _ _) as [[e|] hs1] eqn:Hres; simpl;
        intros [= <- <-].
      * split; [eexists [ev; _; _]; by rewrite <- app_assoc |].
        intros ? [= <-]. split; [done |]. right. exists payload, a.
        by rewrite Hread.
      * split; [eexists [ev; _; _]; by rewrite <- app_assoc | done].
  - simpl.
    set (ev := EvRead buf 0 None (Some e0) (bytes_of (heap (globals st)) buf)).
    destruct (tk_done tk) eqn:Hdone.
    { intros [= <- <-]. split; [by exists [ev] |]. intros ? [= <-]. by left. }
    destruct (bool_decide (0 < timeout)%Z && negb (tk_reset tk)) eqn:Htimer.
    { intros [= <- <-]. apply timer_expired_inv in Htimer as [? ?].
      split; [eexists [ev; _]; by simpl; rewrite <- app_assoc |].
      intros ? [= <-]. right. done. }
    apply timer_quiet_inv in Htimer.
    intros [= <- <-]. split; [by exists [ev] |].
    intros ? [= <-]. split; [done |]. left. by rewrite Hread.
Qed.

Lemma serve_loop_blocked_reads script done conn timeout buf : ∀ st st',
  buf_ok (heap (globals st)) buf →
  serve_loop script done conn timeout buf st = (Blocked, st') →
  buf_ok (heap (globals st')) buf ∧
  ∃ tr, trace st' = trace st ++ tr ∧ reads tr = length script.
Proof.
  induction script as [|tk script IH]; intros st st' Hok Hrun.
  - simpl in Hrun. injection Hrun as <-. split; [done |].
    exists []. by rewrite app_nil_r.
  - change (tk :: script) with ([tk] ++ script) in Hrun.
    rewrite serve_loop_app in Hrun.
    destruct (serve_loop [tk] done conn timeout buf st) as [o1 st2] eqn:Hpass.
    destruct o1 as [err | |]; [discriminate | discriminate |].
    destruct (serve_loop_one_pass _ _ _ _ _ _ _ _ Hok Hpass) as [(tr1 & Htr1 & Hr1) _].
    pose proof (serve_loop_frame [tk] done conn timeout buf st Hok) as Hf.
    cbv zeta in Hf. rewrite Hpass in Hf. destruct Hf as (Hok2 & _).
    destruct (IH st2 st' Hok2 Hrun) as (Hok' & tr2 & Htr2 & Hr2).
    split; [done |]. exists (tr1 ++ tr2).
    split; [by rewrite Htr2, Htr1, <- app_assoc |].
    rewrite reads_app, Hr1, Hr2. done.
Qed.

(** X10. Why a run ended. If [Serve] is still in its read at the end of
    the input, every pass was undisturbed and brought a datagram. If it
    returned, it did so on one pass of the input, which the loop had
    reached and at which the run ended, having read once per pass up to
    it; it returned nil only if on that pass [done] had fired or, with a
    timeout greater than zero, the timer had expired; it returned an
    error only if that pass was undisturbed and the error is that of its
    failed read, or the one the handler returned when invoked, in the
    state the earlier passes left, on the datagram of that pass. *)
Theorem Serve_outcome_cause
    (script : list Tick) (done : Chan) (conn : UDPConn) (timeout : Z) st :
  let res := Serve script done conn timeout st in
  (res.1 = Blocked → Forall (clean timeout) script) ∧
  (∀ err, res.1 = Returned err →
     ∃ pre tk post st1 tr,
       script = pre ++ tk :: post ∧
       Serve pre done conn timeout st = (Blocked, st1) ∧
       Serve (pre ++ [tk]) done conn timeout st = res ∧
       trace res.2 = trace st ++ tr ∧
       reads tr = S (length pre) ∧
       stop_cause done conn timeout tk (hstate st1) (hstate res.2) err).
Proof.
  intros res. unfold res. split.
  - rewrite Serve_unfold. apply serve_loop_cause.
  - intros err Herr.
    destruct (Serve script done conn timeout st) as [o st'] eqn:Hrun.
    simpl in Herr. subst o. rewrite Serve_unfold in Hrun.
    destruct (serve_loop_stopping_pass _ _ _ _ _ _ _ _ Hrun)
      as (pre & tk & post & st1 & -> & Hpre & Hlast); [done |].
    destruct (serve_loop_blocked_reads _ _ _ _ _ _ _ (Serve_entry_ok st) Hpre)
      as (Hok1 & tr0 & Htr0 & Hr0).
    destruct (serve_loop_one_pass _ _ _ _ _ _ _ _ Hok1 Hlast)
      as [(tr1 & Htr1 & Hr1) Hcause].
    exists pre, tk, post, st1, (tr0 ++ tr1).
    split; [done |].
    split; [by rewrite Serve_unfold |].
    split; [by rewrite Serve_unfold, serve_loop_app, Hpre |].
    simpl in Htr0. simpl.
    split; [by rewrite Htr1, Htr0, <- app_assoc |].
    split; [rewrite reads_app, Hr0, Hr1; lia |].
    by apply Hcause.
Qed.

Lemma shaped_bounded done conn tr :
  shaped done conn tr → dispatches_bounded done tr.
Proof.
  induction 1 as [| b n sa err seen tr _ IH
                  | b n a seen ctx w msg ap tr Hn Hcall _ IH
                  | b n sa err seen s]; simpl; try done.
  split; [| done]. intros start closed.
  unfold call_for in Hcall. injection Hcall as -> _ _ _. simpl.
  by destruct (closed done).
Qed.

(** C5. For every dispatched datagram that is not empty, the context given
    to the handler is the timeout context over the context cancelled on
    [done]: it is cancelled at whichever comes first of the closing of
    [done] and [HandleTimeout] after the start of the dispatch; and the
    timeout context is released when the dispatch returns, whatever the
    handler returned, nil or an error. So it is for every invocation of
    every run of [Serve]. *)
Theorem dispatch_context_bounded_and_released
    (script : list Tick) (done : Chan) (conn : UDPConn) (timeout : Z) st :
  (∀ (buf : Slice) (a : UDPAddr) st0,
     s_len buf ≠ 0 →
     let ctx := WithTimeout (WithCancel Background done) HandleTimeout in
     let w := NewConnectionWriter conn (Some a) in
     let msg := BytesToMessage (bytes_of (heap (globals st0)) buf) in
     let r := Handle (hstate st0) ctx w msg (UDPAddrToAddressPort a) in
     doHandle done buf conn (Some a) st0 =
       (Returned r.1,
        mkState (globals st0) r.2
          (trace st0 ++ [EvHandle ctx w msg (UDPAddrToAddressPort a);
                         EvCancelTimeout])) ∧
     ∀ start closed,
       cancelled_at ctx start closed
       = earliest (closed done) (Some (start + HandleTimeout)%Z)) ∧
  (let res := Serve script done conn timeout st in
   ∃ tr, trace res.2 = trace st ++ tr ∧ dispatches_bounded done tr).
Proof.
  split.
  - intros buf a st0 Hn ctx w msg r. split; [by apply doHandle_call |].
    intros start closed. simpl. by destruct (closed done).
  - rewrite Serve_unfold.
    destruct (serve_loop_shaped script done conn timeout _ _ (Serve_entry_ok st))
      as (tr & Htr & Hsh).
    exists tr. split; [exact Htr | by eapply shaped_bounded].
Qed.

Lemma serve_loop_keeps_running script done conn timeout buf : ∀ st,
  (∀ hs ctx w msg a, (Handle hs ctx w msg a).1 = None) →
  Forall (clean timeout) script →
  buf_ok (heap (globals st)) buf →
  let res := serve_loop script done conn timeout buf st in
  res.1 = Blocked ∧ ∃ tr, trace res.2 = trace st ++ tr ∧ reads tr = length script.
Proof.
  intros st Hnil Hclean. revert st.
  induction Hclean as [|tk script [[Hdone Htimer] (payload & a & Hread)] _ IH];
    intros st Hok.
  - simpl. split; [done |]. exists []. by rewrite app_nil_r.
  - cbn [serve_loop]. rewrite Hread, Hdone, (timer_quiet _ _ Htimer).
    destruct (ReadFromUDP_datagram buf payload a _ Hok)
      as (h' & -> & Hok' & _ & _ & _).
    set (ev := EvRead buf _ (Some a) None (bytes_of h' buf)).
    destruct Hok as (Hl & Hc & _).
    unfold slice_to. rewrite decide_True by lia.
    match goal with |- context [doHandle done ?b conn (Some a) ?s] =>
      destruct (doHandle_cases done b conn (Some a) s)
        as [[_ ->] | [(_ & ? & _) | (_ & a' & [= <-] & ->)]]; [| done |]
    end.
    + match goal with |- context [serve_loop script done conn timeout buf ?s] =>
        destruct (IH s Hok') as (Hb & tr & Htr & Hreads)
      end.
      split; [done |]. exists (ev :: tr).
      split; [by rewrite Htr; simpl; rewrite <- app_assoc |].
      change (ev :: tr) with ([ev] ++ tr). rewrite reads_app, Hreads. done.
    + cbv zeta.
      match goal with |- context [Handle ?hs ?ctx ?w ?msg ?ap] =>
        pose proof (Hnil hs ctx w msg ap) as Hres;
        destruct (Handle hs ctx w msg ap) as [r hs1]
      end.
      simpl in Hres. subst r. cbn [fst snd].
      match goal with |- context [serve_loop script done conn timeout buf ?s] =>
        destruct (IH s Hok') as (Hb & tr & Htr & Hreads)
      end.
      split; [done |]. eexists.
      split; [etrans; [exact Htr |]; simpl; rewrite <- !app_assoc; reflexivity |].
      rewrite !reads_app, Hreads. done.
Qed.

(** X11. A handler that never returns an error, on passes that are all
    undisturbed and bring a datagram, keeps [Serve] going: it does not
    return, every pass of the input is read, and it ends waiting in its
    read. *)
Theorem Serve_keeps_running
    (script : list Tick) (done : Chan) (conn : UDPConn) (timeout : Z) st :
  (∀ hs ctx w msg a, (Handle hs ctx w msg a).1 = None) →
  Forall (clean timeout) script →
  let res := Serve script done conn timeout st in
  res.1 = Blocked ∧ ∃ tr, trace res.2 = trace st ++ tr ∧ reads tr = length script.
Proof.
  intros Hnil Hclean. rewrite Serve_unfold.
  exact (serve_loop_keeps_running script done conn timeout _ _ Hnil Hclean
           (Serve_entry_ok st)).
Qed.

Lemma serve_loop_without_timer script script' done conn timeout buf : ∀ st,
  (timeout ≤ 0)%Z →
  Forall2 same_but_timer script script' →
  serve_loop script done conn timeout buf st
  = serve_loop script' done conn timeout buf st.
Proof.
  intros st Ht Hsame. revert st.
  induction Hsame as [|tk tk' script script' [Hread Hdone] _ IH]; intros st; [done |].
  cbn [serve_loop]. rewrite <- Hread, <- Hdone.
  rewrite !bool_decide_eq_false_2 by lia. simpl.
  destruct (ReadFromUDP buf (tk_read tk) (heap (globals st)))
    as [[[n sourceAddr] err] h].
  destruct (tk_done tk); [done |].
  destruct err; [done |].
  destruct (slice_to buf n) as [b|]; [| done].
  destruct (doHandle done b conn sourceAddr _) as [[[e|]| |] st2]; auto.
Qed.

(** X12. With a timeout that is not greater than zero the idle timer plays
    no part: what [timer.Reset] would have answered changes nothing in the
    run, neither the result nor the state nor the trace. *)
Theorem Serve_without_timer
    (script script' : list Tick) (done : Chan) (conn : UDPConn) (timeout : Z) st :
  (timeout ≤ 0)%Z →
  Forall2 same_but_timer script script' →
  Serve script done conn timeout st = Serve script' done conn timeout st.
Proof.
  intros Ht Hsame. rewrite !Serve_unfold. by apply serve_loop_without_timer.
Qed.


End ServeMore.

(** ** The claims on concrete runs *)

Lemma quiet_clean timeout payload : clean timeout (quiet payload).
Proof. split; [split; [reflexivity | right; reflexivity] | by eexists _, _]. Qed.

(** The amended C1 on three datagrams, the second one empty, the third one
    longer than the buffer. *)
Lemma each_nonempty_datagram_handled_once_witness :
  let script := [quiet [x01; x02]; quiet []; quiet [x03; x04; x05; x06; x07]] in
  Forall (clean 0) script ∧
  ∃ tr, trace (demo_Serve script 0).2 = trace demo_state ++ tr ∧
        once_per_nonempty_datagram (pkg := demo_pkg) 0 0 tr ∧
        Forall2 (read_matches (pkg := demo_pkg))
          (take (length (datagrams tr)) script) (datagrams tr) ∧
        reads tr = length (datagrams tr) ∧
        ((demo_Serve script 0).1 = Blocked → length (datagrams tr) = length script).
Proof.
  intros script.
  assert (Hclean : Forall (clean 0) script).
  { repeat apply Forall_cons_2; [apply quiet_clean .. | constructor]. }
  split; [exact Hclean |].
  exact (each_nonempty_datagram_handled_once (pkg := demo_pkg) (hd := demo_handler)
           script 0 0 0 demo_state Hclean).
Defined.

(** C1 as stated fails on an empty datagram: the pass is clean, the
    datagram is read, and the handler is not invoked for it. *)
Lemma each_datagram_handled_once_fails :
  let script := [quiet []] in
  Forall (clean 0) script ∧
  datagrams (trace (demo_Serve script 0).2) = [(0, demo_peer, [x00; x00; x00; x00])] ∧
  calls (trace (demo_Serve script 0).2) = [] ∧
  ¬ once_per_datagram (pkg := demo_pkg) 0 0 (trace (demo_Serve script 0).2).
Proof.
  intros script. split; [apply Forall_cons_2; [apply quiet_clean | constructor] |].
  split; [reflexivity | split; [reflexivity |]].
  unfold once_per_datagram. vm_compute. discriminate.
Qed.

(** C2 where the read fails while [done] has fired: the error is not
    reported. *)
Lemma done_stops_Serve_witness :
  let pre := [quiet [x01; x02]] in
  let tk := mkTick (ReadError "use of closed network connection") true true in
  let st1 := (demo_Serve pre 30).2 in
  demo_Serve pre 30 = (Blocked, st1) ∧
  tk_done tk = true ∧
  ∃ st2 buf n sourceAddr err seen,
    demo_Serve (pre ++ tk :: [quiet [x03]]) 30 = (Returned None, st2) ∧
    (ReadFromUDP buf (tk_read tk) (heap (globals st1))).1 = (n, sourceAddr, err) ∧
    trace st2 = trace st1 ++ [EvRead buf n sourceAddr err seen] ∧
    hstate st2 = hstate st1 ∧
    calls (trace st2) = calls (trace st1) ∧
    reads (trace st2) = S (reads (trace st1)).
Proof.
  intros pre tk st1.
  split; [reflexivity | split; [reflexivity |]].
  apply (done_stops_Serve (pkg := demo_pkg) (hd := demo_handler)
           pre tk [quiet [x03]] 0 0 30 demo_state st1); reflexivity.
Defined.

(** C3 where the read failed because the timer closed the connection. *)
Lemma expired_timer_stops_Serve_witness :
  let pre := [quiet [x01; x02]] in
  let tk := mkTick (ReadError "use of closed network connection") false false in
  let st1 := (demo_Serve pre 30).2 in
  demo_Serve pre 30 = (Blocked, st1) ∧
  (0 < 30)%Z ∧ tk_done tk = false ∧ tk_reset tk = false ∧
  ∃ st2 buf n sourceAddr err seen,
    demo_Serve (pre ++ tk :: [quiet [x03]]) 30 = (Returned None, st2) ∧
    (ReadFromUDP buf (tk_read tk) (heap (globals st1))).1 = (n, sourceAddr, err) ∧
    trace st2 = trace st1 ++ [EvRead buf n sourceAddr err seen;
                              EvLog "DEBUG: Stop Serve after timeout."] ∧
    hstate st2 = hstate st1 ∧
    calls (trace st2) = calls (trace st1) ∧
    reads (trace st2) = S (reads (trace st1)).
Proof.
  intros pre tk st1.
  split; [reflexivity | split; [reflexivity | split; [reflexivity | split; [reflexivity |]]]].
  apply (expired_timer_stops_Serve (pkg := demo_pkg) (hd := demo_handler)
           pre tk [quiet [x03]] 0 0 30 demo_state st1); reflexivity.
Defined.

(** C4 on a pass whose read fails, and on one whose datagram the handler
    rejects. *)
Lemma errors_stop_Serve_witness :
  let pre := [quiet [x01; x02]] in
  let st1 := (demo_Serve pre 30).2 in
  (∃ st2 buf seen,
     demo_Serve (pre ++ mkTick (ReadError "connection refused") false true
                   :: [quiet [x03]]) 30
     = (Returned (Some "connection refused"%string), st2) ∧
     trace st2 = trace st1 ++ [EvRead buf 0 None (Some "connection refused"%string) seen] ∧
     hstate st2 = hstate st1 ∧
     calls (trace st2) = calls (trace st1) ∧
     reads (trace st2) = S (reads (trace st1))) ∧
  (∃ st2, demo_Serve (pre ++ quiet [xff; x01] :: [quiet [x03]]) 30
          = (Returned (Some "bad request"%string), st2) ∧
          hstate st2 = 2 ∧
          reads (trace st2) = S (reads (trace st1))).
Proof.
  intros pre st1.
  assert (Hpre : demo_Serve pre 30 = (Blocked, st1)) by reflexivity.
  split.
  - assert (Hu : undisturbed 30 (mkTick (ReadError "connection refused") false true)).
    { split; [reflexivity | right; reflexivity]. }
    destruct (errors_stop_Serve (pkg := demo_pkg) (hd := demo_handler)
                pre _ [quiet [x03]] 0 0 30 demo_state st1 Hpre Hu) as [Hread _].
    exact (Hread _ eq_refl).
  - assert (Hu : undisturbed 30 (quiet [xff; x01])).
    { split; [reflexivity | right; reflexivity]. }
    destruct (errors_stop_Serve (pkg := demo_pkg) (hd := demo_handler)
                pre _ [quiet [x03]] 0 0 30 demo_state st1 Hpre Hu) as [_ Hhandler].
    destruct (Hhandler [xff; x01] demo_peer "bad request"%string 2 eq_refl)
      as (st2 & buf & seen & Hrun & _ & Hhs & Hreads).
    + simpl. lia.
    + reflexivity.
    + exists st2. auto.
Defined.

(** C6 on an empty datagram followed by one that is not. *)
Lemma empty_datagram_is_skipped_witness :
  let pre := [quiet [x01; x02]] in
  let st1 := (demo_Serve pre 0).2 in
  ∃ buf seen,
    let st2 := mkState (globals st1) (hstate st1)
                 (trace st1 ++ [EvRead buf 0 (Some demo_peer) None seen]) in
    demo_Serve (pre ++ [quiet []]) 0 = (Blocked, st2) ∧
    demo_Serve (pre ++ quiet [] :: [quiet [x03]]) 0
    = serve_loop (pkg := demo_pkg) (hd := demo_handler) [quiet [x03]] 0 0 0 buf st2.
Proof.
  intros pre st1.
  assert (Hpre : demo_Serve pre 0 = (Blocked, st1)) by reflexivity.
  assert (Hu : undisturbed 0 (quiet [])).
  { split; [reflexivity | left; lia]. }
  exact (proj2 (empty_datagram_is_skipped (pkg := demo_pkg) (hd := demo_handler)
                  pre (quiet []) [quiet [x03]] 0 0 0 demo_state st1 [] demo_peer
                  Hpre Hu eq_refl eq_refl)).
Defined.

(** C7 as stated fails in a process that has not used the pool: no choice
    of the runtime makes a draw from the pool agree with what [Serve]
    does, for the draw creates the pool and [Serve] leaves it nil, also
    after a whole run. *)
Lemma Serve_buffer_not_drawn_from_pool :
  ¬ buffer_drawn_from_pool (pkg := demo_pkg) (start []) ∧
  singletonBufferPool (globals (demo_Serve [quiet [x01; x02]] 0).2) = None ∧
  once (globals (demo_Serve [quiet [x01; x02]] 0).2) = false.
Proof.
  split; [| split; reflexivity].
  intros [pick Hpick]. unfold pool_drawn_buffer, Get in Hpick. simpl in Hpick.
  destruct pick as [[|i]|]; discriminate.
Qed.

(** The amended C7 on a run that reads one datagram of two bytes: one array
    on the heap, and zeros behind the datagram. *)
Lemma Serve_buffer_is_fresh_witness :
  let script := [quiet [x01; x02]] in
  length (heap (globals (demo_Serve script 0).2)) = 1 ∧
  ∃ tr', trace (demo_Serve script 0).2 =
         trace demo_state ++
         EvRead (mkSlice 0 4 4) 2 (Some demo_peer) None [x01; x02; x00; x00] :: tr'.
Proof.
  intros script.
  destruct (Serve_buffer_is_fresh (pkg := demo_pkg) (hd := demo_handler)
              script 0 0 0 demo_state)
    as (_ & _ & _ & _ & _ & Hlen & _ & _ & _ & Hfirst).
  split; [exact Hlen |].
  exact (Hfirst _ _ _ _ eq_refl eq_refl).
Defined.

(** C5 on a datagram the handler rejects: the timeout context is released
    all the same; [done] closed at 150 cancels a dispatch started at 100
    before its deadline, and the deadline cancels it when [done] stays
    open. *)
Lemma dispatch_context_bounded_and_released_witness :
  let ctx := WithTimeout (WithCancel Background 0) 1000000000 in
  let buf := mkSlice 0 1 4 in
  let st0 : State (pkg := demo_pkg) (H := nat) :=
    mkState (mkGlobals [[xff; x00; x00; x00]] None false) 0 [] in
  s_len buf ≠ 0 ∧
  doHandle (pkg := demo_pkg) (hd := demo_handler) 0 buf 0 (Some demo_peer) st0
  = (Returned (Some "bad request"%string),
     mkState (globals st0) 1
       [EvHandle (pkg := demo_pkg) ctx (0, Some demo_peer) [xff]
          (IP demo_peer, Port demo_peer);
        EvCancelTimeout]) ∧
  cancelled_at ctx 100 (λ _, Some 150%Z) = Some 150%Z ∧
  cancelled_at ctx 100 (λ _, None) = Some 1000000100%Z.
Proof.
  intros ctx buf st0.
  assert (Hn : s_len buf ≠ 0) by (simpl; lia).
  destruct (proj1 (dispatch_context_bounded_and_released (pkg := demo_pkg)
                     (hd := demo_handler) [] 0 0 0 demo_state)
              buf demo_peer st0 Hn) as [Hd Hc].
  split; [exact Hn |]. split; [exact Hd |].
  split; [exact (Hc 100%Z (λ _, Some 150%Z)) | exact (Hc 100%Z (λ _, None))].
Defined.

(** C9 after a history with two returns and a collection in between. *)
Lemma Get_capacity_witness :
  let ops := [OpGet None; OpPut (mkSlice 0 4 4); OpCollect; OpPut (mkSlice 0 2 4)] in
  Forall (put_sized (pkg := demo_pkg)) ops ∧
  ∃ xs g1 x g2,
    pool_run (pkg := demo_pkg) ops (start []) = Some (xs, g1) ∧
    Get (pkg := demo_pkg) (Some 0) (GetBufferPool g1) = Some (x, g2) ∧
    s_cap x = 4.
Proof.
  intros ops.
  assert (Hops : Forall (put_sized (pkg := demo_pkg)) ops).
  { repeat constructor. }
  split; [exact Hops |].
  exact (proj1 (Get_capacity (pkg := demo_pkg) [] ops (Some 0) Hops)).
Defined.

(** C10 where the system refuses the receive-buffer size: the socket is
    open, and the caller gets no connection. *)
Lemma error_means_no_connection_witness :
  Listen (pkg := demo_pkg) stingy_os "127.0.0.1:0" []
  = ((None, Some "operation not permitted"%string),
     [mkSocket (Bound (mkUDPAddr [x7f; x00; x00; x01] 0 EmptyString)) (Some 4) None]) ∧
  ∀ c e net',
    Listen (pkg := demo_pkg) stingy_os "127.0.0.1:0" [] = ((c, Some e), net') → c = None.
Proof.
  split; [reflexivity |].
  exact (proj1 (proj2 (error_means_no_connection (pkg := demo_pkg) stingy_os
                         "127.0.0.1:0" []))).
Defined.

(** C8 on a system that lets everything through. *)
Example Dial_Listen_demo :
  Dial (pkg := demo_pkg) demo_os "127.0.0.1:0" []
  = ((Some 0, None),
     [mkSocket (Connected (mkUDPAddr [x7f; x00; x00; x01] 0 EmptyString)) (Some 4) (Some 4)]) ∧
  Listen (pkg := demo_pkg) demo_os "127.0.0.1:0" []
  = ((Some 0, None),
     [mkSocket (Bound (mkUDPAddr [x7f; x00; x00; x01] 0 EmptyString)) (Some 4) (Some 4)]) ∧
  Dial (pkg := demo_pkg) demo_os "localhost" []
  = ((None, Some "missing port in address"%string), []).
Proof. repeat split. Qed.

(** ** The further properties on concrete runs *)

(** X2 in a process that has not used the pool yet. *)
Lemma Put_then_Get_witness :
  pool_live (start []) ∧
  ∃ g1, Put (mkSlice 0 4 4) (GetBufferPool (start [])) = Some g1 ∧
        Get (pkg := demo_pkg) (Some 0) (GetBufferPool g1)
        = Some (mkSlice 0 4 4, GetBufferPool (start [])).
Proof.
  assert (Hlive : pool_live (start [])) by (intros ?; discriminate).
  split; [exact Hlive |].
  exact (Put_then_Get (pkg := demo_pkg) (start []) (mkSlice 0 4 4) Hlive).
Defined.

(** X3 on a pool of two buffers: one is taken, then the runtime chooses
    to allocate. *)
Lemma Get_twice_distinct_witness :
  let b0 := mkSlice 0 4 4 in
  let b1 := mkSlice 1 4 4 in
  let g := mkGlobals [[x01; x02; x03; x04]; [x00; x00; x00; x00]]
             (Some (mkBufferPool (syncPool.mk [b0; b1]))) true in
  ∃ g1 y g2,
    Get (pkg := demo_pkg) (Some 1) g = Some (b1, g1) ∧
    Get (pkg := demo_pkg) None g1 = Some (y, g2) ∧
    s_ptr b1 ≠ s_ptr y ∧ pool_sound g2.
Proof.
  intros b0 b1 g.
  assert (Hsound : pool_sound g).
  { split.
    - apply NoDup_cons. split; [| apply NoDup_singleton].
      intros Hin%list_elem_of_singleton. discriminate.
    - repeat constructor. }
  eexists _, _, _. split; [reflexivity |]. split; [reflexivity |].
  exact (Get_twice_distinct (pkg := demo_pkg) g (Some 1) None _ _ _ _
           Hsound eq_refl eq_refl).
Defined.

(** X10 on a run that a failed read ends on its second pass. *)
Lemma Serve_outcome_cause_witness :
  let script := [quiet [x01]; mkTick (ReadError "connection refused") false true;
                 quiet [x02]] in
  let res := demo_Serve script 0 in
  res.1 = Returned (Some "connection refused"%string) ∧
  ∃ pre tk post st1 tr,
    script = pre ++ tk :: post ∧
    demo_Serve pre 0 = (Blocked, st1) ∧
    demo_Serve (pre ++ [tk]) 0 = res ∧
    trace res.2 = trace demo_state ++ tr ∧
    reads tr = S (length pre) ∧
    stop_cause (pkg := demo_pkg) (hd := demo_handler) 0 0 0 tk
      (hstate st1) (hstate res.2) (Some "connection refused"%string).
Proof.
  intros script res. split; [reflexivity |].
  exact (proj2 (Serve_outcome_cause (pkg := demo_pkg) (hd := demo_handler)
                  script 0 0 0 demo_state) _ eq_refl).
Defined.

(** X11 with a handler that accepts everything. *)
Lemma Serve_keeps_running_witness :
  let script := [quiet [x01]; quiet []; quiet [xff; x02]] in
  let res := Serve (pkg := demo_pkg) (hd := demo_counter) script 0 0 30 demo_state in
  res.1 = Blocked ∧
  ∃ tr, trace res.2 = trace demo_state ++ tr ∧ reads tr = length script.
Proof.
  intros script.
  apply (Serve_keeps_running (pkg := demo_pkg) (hd := demo_counter)).
  - reflexivity.
  - repeat apply Forall_cons_2; [apply quiet_clean .. | constructor].
Defined.

(** X12 on two inputs that differ in the timer's answers only. *)
Lemma Serve_without_timer_witness :
  demo_Serve [mkTick (Datagram [x01] demo_peer) false true;
              mkTick (ReadError "connection refused") false true] 0
  = demo_Serve [mkTick (Datagram [x01] demo_peer) false false;
                mkTick (ReadError "connection refused") false false] 0.
Proof.
  apply (Serve_without_timer (pkg := demo_pkg) (hd := demo_handler)).
  - lia.
  - repeat constructor.
Defined.
